(** * ddbm: DynamoDB migrator (export / import of one table as JSON)

    A shallow embedding of [main.go] and of the parts of its collaborators
    that the program's behaviour depends on:

    - the attribute values of the store and Go's dynamic values ([any]),
      with the two conversions of package [attributevalue];
    - [encoding/json]: values to JSON text and back;
    - the store itself (describe-table, paginated scan, put-item), the file
      system and the confirmation prompt, as an explicit world state;
    - [export], [importFromFile] and [main], written over a state and
      error monad that follows the control flow of the Go functions. *)

From Stdlib Require Import Ascii.
From stdpp Require Import gmap strings list fin_maps sorting.

#[local] Set Warnings "-register-all".
#[local] Open Scope string_scope.
#[local] Open Scope list_scope.

(** ** Numbers

    Items hold numbers as decimal strings (attribute type N); Go decodes
    them into [float64] and prints them back.  The three conversions of
    package [strconv] and [encoding/json] the program goes through are
    an interface here; [IntFloat64] below implements it for the integers
    that a [float64] holds exactly. *)

Class Float64 := {
  float64 : Type;
  (** [strconv.ParseFloat(s, 64)]; [None] when it returns an error. *)
  ParseFloat : string → option float64;
  (** [strconv.FormatFloat(f, 'f', -1, 64)], used by the attribute encoder. *)
  FormatFloat : float64 → string;
  (** The number literal [json.Marshal] writes for a [float64]; [None] for
      the values it refuses (NaN and the infinities). *)
  json_float : float64 → option string;
}.

(** ** Attribute values (package [types]) *)

Inductive AttributeValue :=
| MemberB (v : string)
| MemberBOOL (v : bool)
| MemberBS (v : list string)
| MemberL (v : list AttributeValue)
| MemberM (v : gmap string AttributeValue)
| MemberN (v : string)
| MemberNS (v : list string)
| MemberNULL (v : bool)
| MemberS (v : string)
| MemberSS (v : list string).

(** An item of a table: [map[string]types.AttributeValue]. *)
Abbreviation Item := (gmap string AttributeValue).

(** ** JSON documents as trees; a number keeps its literal. *)

Inductive JSON :=
| JNull
| JBool (b : bool)
| JNumber (lit : string)
| JString (s : string)
| JArray (l : list JSON)
| JObject (kvs : list (string * JSON)).

(** Turns a map of optional results into an optional map: the first
    failure of a traversal fails the whole. *)
Definition map_sequence {A} (m : gmap string (option A)) : option (gmap string A) :=
  if decide (map_Forall (λ _, is_Some) m) then Some (omap id m) else None.

(** A JSON object read into a Go map: a later member replaces an earlier
    one of the same name. *)
Definition members_to_map {A} (kvs : list (string * A)) : gmap string A :=
  foldl (λ m kv, <[kv.1 := kv.2]> m) ∅ kvs.

(** ** Characters *)

Definition byte_of (n : N) : ascii := ascii_of_N n.
Definition code (c : ascii) : N := N_of_ascii c.

(** The quotation mark and the backslash. *)
Definition dquote : ascii := byte_of 34.
Definition backslash : ascii := byte_of 92.

Definition is_digit (c : ascii) : bool := (48 <=? code c)%N && (code c <=? 57)%N.

Definition hex_digit (n : N) : ascii :=
  if (n <? 10)%N then byte_of (48 + n) else byte_of (87 + n).

Definition hex_value (c : ascii) : option N :=
  let n := code c in
  if (48 <=? n)%N && (n <=? 57)%N then Some (n - 48)%N
  else if (97 <=? n)%N && (n <=? 102)%N then Some (n - 87)%N
  else if (65 <=? n)%N && (n <=? 70)%N then Some (n - 55)%N
  else None.

(** ** [encoding/base64], standard alphabet with padding: how
    [json.Marshal] writes a [[]byte]. *)

Definition base64_char (n : N) : ascii :=
  if (n <? 26)%N then byte_of (65 + n)
  else if (n <? 52)%N then byte_of (71 + n)
  else if (n <? 62)%N then byte_of (n - 4)
  else if (n =? 62)%N then "+"%char else "/"%char.

Fixpoint base64 (s : string) : string :=
  match s with
  | EmptyString => EmptyString
  | String a EmptyString =>
      let x := code a in
      String (base64_char (x / 4)) (String (base64_char ((x mod 4) * 16)) "==")
  | String a (String b EmptyString) =>
      let x := code a in let y := code b in
      String (base64_char (x / 4))
        (String (base64_char ((x mod 4) * 16 + y / 16))
           (String (base64_char ((y mod 16) * 4)) "="))
  | String a (String b (String c r)) =>
      let x := code a in let y := code b in let z := code c in
      String (base64_char (x / 4))
        (String (base64_char ((x mod 4) * 16 + y / 16))
           (String (base64_char ((y mod 16) * 4 + z / 64))
              (String (base64_char (z mod 64)) (base64 r))))
  end.

(** ** JSON text: writing

    [json.Marshal] writes compact text.  Inside a string it escapes the
    quote, the backslash, the control characters and, for HTML safety,
    the characters <, > and &; bytes from 128 on are copied (they are the
    UTF-8 encoding of the string's characters). *)

Definition escape_char (c : ascii) : string :=
  let n := code c in
  if (n =? 34)%N then String backslash (String dquote EmptyString)
  else if (n =? 92)%N then String backslash (String backslash EmptyString)
  else if (n =? 8)%N then "\b"
  else if (n =? 12)%N then "\f"
  else if (n =? 10)%N then "\n"
  else if (n =? 13)%N then "\r"
  else if (n =? 9)%N then "\t"
  else if (n <? 32)%N || (n =? 60)%N || (n =? 62)%N || (n =? 38)%N then
    "\u00" +:+ String (hex_digit (n / 16)) (String (hex_digit (n mod 16)) EmptyString)
  else String c EmptyString.

Fixpoint escape (s : string) : string :=
  match s with
  | EmptyString => EmptyString
  | String c r => escape_char c +:+ escape r
  end.

Definition quote (s : string) : string :=
  String dquote (escape s +:+ String dquote EmptyString).

Fixpoint render (j : JSON) : string :=
  match j with
  | JNull => "null"
  | JBool true => "true"
  | JBool false => "false"
  | JNumber lit => lit
  | JString s => quote s
  | JArray l =>
      "[" +:+ String.concat "," (map render l) +:+ "]"
  | JObject kvs =>
      "{" +:+ String.concat "," (map (λ kv, quote kv.1 +:+ ":" +:+ render kv.2) kvs) +:+ "}"
  end.

(** ** JSON text: reading

    The grammar of RFC 8259 as [encoding/json] checks it.  White space is
    space, tab, line feed and carriage return. *)

Definition is_space (c : ascii) : bool :=
  let n := code c in (n =? 32)%N || (n =? 9)%N || (n =? 10)%N || (n =? 13)%N.

Fixpoint skip_ws (s : string) : string :=
  match s with
  | String c r => if is_space c then skip_ws r else s
  | EmptyString => s
  end.

Fixpoint strip_prefix (p s : string) : option string :=
  match p, s with
  | EmptyString, _ => Some s
  | String a p', String b s' => if Ascii.eqb a b then strip_prefix p' s' else None
  | String _ _, EmptyString => None
  end.

(** *** Numbers: an optional minus sign; the digit 0 or a run of digits
    that does not start with 0; optionally a point and digits; optionally
    an exponent (e or E, an optional sign, digits). *)

Fixpoint skip_digits (s : string) : string :=
  match s with
  | String c r => if is_digit c then skip_digits r else s
  | EmptyString => s
  end.

Definition number_exp (s : string) : bool :=
  match s with
  | EmptyString => true
  | String c r =>
      if (code c =? 101)%N || (code c =? 69)%N then
        let r1 := match r with
                  | String d r' => if (code d =? 43)%N || (code d =? 45)%N then r' else r
                  | EmptyString => r
                  end in
        match r1 with
        | String d r2 => is_digit d && bool_decide (skip_digits r2 = EmptyString)
        | EmptyString => false
        end
      else false
  end.

Definition number_frac (s : string) : bool :=
  match s with
  | String c (String d r) =>
      if (code c =? 46)%N then is_digit d && number_exp (skip_digits r)
      else number_exp s
  | _ => number_exp s
  end.

Definition number_int (s : string) : bool :=
  match s with
  | String c r =>
      if (code c =? 48)%N then number_frac r
      else is_digit c && number_frac (skip_digits r)
  | EmptyString => false
  end.

Definition is_json_number (s : string) : bool :=
  match s with
  | String c r => if (code c =? 45)%N then number_int r else number_int s
  | EmptyString => false
  end.

Definition is_number_char (c : ascii) : bool :=
  let n := code c in
  is_digit c || (n =? 43)%N || (n =? 45)%N || (n =? 46)%N || (n =? 101)%N || (n =? 69)%N.

(** The longest run of characters a number can be made of.  A number is
    followed by white space, a comma, a bracket or the end of the text,
    so whatever the grammar leaves of this run is a syntax error too. *)
Fixpoint span_number (s : string) : string * string :=
  match s with
  | String c r =>
      if is_number_char c then
        let '(t, r') := span_number r in (String c t, r')
      else (EmptyString, s)
  | EmptyString => (EmptyString, EmptyString)
  end.

Definition parse_number (s : string) : option (JSON * string) :=
  let '(t, r) := span_number s in
  if is_json_number t then Some (JNumber t, r) else None.

(** *** Strings *)

Definition utf8 (cp : N) : string :=
  if (cp <? 128)%N then String (byte_of cp) EmptyString
  else if (cp <? 2048)%N then
    String (byte_of (192 + cp / 64)) (String (byte_of (128 + cp mod 64)) EmptyString)
  else if (cp <? 65536)%N then
    String (byte_of (224 + cp / 4096))
      (String (byte_of (128 + (cp / 64) mod 64))
         (String (byte_of (128 + cp mod 64)) EmptyString))
  else
    String (byte_of (240 + cp / 262144))
      (String (byte_of (128 + (cp / 4096) mod 64))
         (String (byte_of (128 + (cp / 64) mod 64))
            (String (byte_of (128 + cp mod 64)) EmptyString))).

Definition hex4 (a b c d : ascii) : option N :=
  x ← hex_value a; y ← hex_value b; z ← hex_value c; w ← hex_value d;
  Some (((x * 16 + y) * 16 + z) * 16 + w)%N.

(** The character a one-letter escape stands for. *)
Definition unescape (e : ascii) : option ascii :=
  let n := code e in
  if (n =? 34)%N || (n =? 92)%N || (n =? 47)%N then Some e
  else if (n =? 98)%N then Some (byte_of 8)
  else if (n =? 102)%N then Some (byte_of 12)
  else if (n =? 110)%N then Some (byte_of 10)
  else if (n =? 114)%N then Some (byte_of 13)
  else if (n =? 116)%N then Some (byte_of 9)
  else None.

Definition is_surrogate (cp : N) : bool := (55296 <=? cp)%N && (cp <? 57344)%N.

(** [utf16.DecodeRune]: a high and a low surrogate make one character,
    anything else the replacement character U+FFFD. *)
Definition decode_surrogates (hi lo : N) : N :=
  if (hi <? 56320)%N && (56320 <=? lo)%N && (lo <? 57344)%N
  then ((hi - 55296) * 1024 + (lo - 56320) + 65536)%N
  else 65533%N.

(** The second half of a surrogate pair, when the text goes on with one. *)
Definition low_escape (s : string) : option (N * string) :=
  match s with
  | String b (String u (String l1 (String l2 (String l3 (String l4 r))))) =>
      if (code b =? 92)%N && (code u =? 117)%N then
        lo ← hex4 l1 l2 l3 l4; Some (lo, r)
      else None
  | _ => None
  end.

Definition prepend (p : string) (x : string * string) : string * string :=
  (p +:+ x.1, x.2).

(** Reads a string from just after its opening quotation mark. *)
Fixpoint parse_string (s : string) : option (string * string) :=
  match s with
  | EmptyString => None
  | String c r =>
      if (code c =? 34)%N then Some (EmptyString, r)
      else if (code c =? 92)%N then
        match r with
        | EmptyString => None
        | String e r1 =>
            if (code e =? 117)%N then
              match r1 with
              | String h1 (String h2 (String h3 (String h4 r2))) =>
                  match hex4 h1 h2 h3 h4 with
                  | None => None
                  | Some cp =>
                      if is_surrogate cp then
                        match r2 with
                        | String b (String u (String l1 (String l2 (String l3 (String l4 r3))))) =>
                            match low_escape r2 with
                            | Some (lo, _) =>
                                if (decode_surrogates cp lo =? 65533)%N
                                then prepend (utf8 65533) <$> parse_string r2
                                else prepend (utf8 (decode_surrogates cp lo)) <$> parse_string r3
                            | None => prepend (utf8 65533) <$> parse_string r2
                            end
                        | _ => prepend (utf8 65533) <$> parse_string r2
                        end
                      else prepend (utf8 cp) <$> parse_string r2
                  end
              | _ => None
              end
            else
              match unescape e with
              | Some ch => prepend (String ch EmptyString) <$> parse_string r1
              | None => None
              end
        end
      else if (code c <? 32)%N then None
      else prepend (String c EmptyString) <$> parse_string r
  end.

(** *** Values.  [fuel] bounds the number of values read; the length of
    the text is always enough. *)

Fixpoint parse_value (fuel : nat) (s : string) : option (JSON * string) :=
  match fuel with
  | O => None
  | S fuel =>
      match skip_ws s with
      | EmptyString => None
      | String c r =>
          let n := code c in
          if (n =? 123)%N then
            match skip_ws r with
            | String c' r' =>
                if (code c' =? 125)%N then Some (JObject [], r')
                else '(kvs, r'') ← parse_members fuel (skip_ws r); Some (JObject kvs, r'')
            | EmptyString => None
            end
          else if (n =? 91)%N then
            match skip_ws r with
            | String c' r' =>
                if (code c' =? 93)%N then Some (JArray [], r')
                else '(l, r'') ← parse_elements fuel (skip_ws r); Some (JArray l, r'')
            | EmptyString => None
            end
          else if (n =? 34)%N then
            '(str, r') ← parse_string r; Some (JString str, r')
          else if (n =? 116)%N then pair (JBool true) <$> strip_prefix "true" (String c r)
          else if (n =? 102)%N then pair (JBool false) <$> strip_prefix "false" (String c r)
          else if (n =? 110)%N then pair JNull <$> strip_prefix "null" (String c r)
          else if (n =? 45)%N || is_digit c then parse_number (String c r)
          else None
      end
  end
with parse_elements (fuel : nat) (s : string) : option (list JSON * string) :=
  match fuel with
  | O => None
  | S fuel =>
      '(v, r) ← parse_value fuel s;
      match skip_ws r with
      | String c r' =>
          if (code c =? 44)%N then
            '(l, r'') ← parse_elements fuel r'; Some (v :: l, r'')
          else if (code c =? 93)%N then Some ([v], r')
          else None
      | EmptyString => None
      end
  end
with parse_members (fuel : nat) (s : string) : option (list (string * JSON) * string) :=
  match fuel with
  | O => None
  | S fuel =>
      match skip_ws s with
      | String q r =>
          if (code q =? 34)%N then
            '(k, r1) ← parse_string r;
            match skip_ws r1 with
            | String c r2 =>
                if (code c =? 58)%N then
                  '(v, r3) ← parse_value fuel r2;
                  match skip_ws r3 with
                  | String c' r4 =>
                      if (code c' =? 44)%N then
                        '(kvs, r5) ← parse_members fuel r4; Some ((k, v) :: kvs, r5)
                      else if (code c' =? 125)%N then Some ([(k, v)], r4)
                      else None
                  | EmptyString => None
                  end
                else None
            | EmptyString => None
            end
          else None
      | EmptyString => None
      end
  end.

(** A whole text is one value, with white space around it at most. *)
Definition json_parse (s : string) : option JSON :=
  '(j, r) ← parse_value (S (String.length s)) s;
  if bool_decide (skip_ws r = EmptyString) then Some j else None.


(** ** Go values and the two codecs *)

Section codecs.
Context `{Float64}.

(** The dynamic values ([any]) that the attribute decoder and
    [json.Unmarshal] produce. *)
Inductive any :=
| any_nil
| any_bool (b : bool)
| any_float64 (f : float64)
| any_string (s : string)
| any_bytes (b : string)
| any_slice (l : list any)
| any_map (m : gmap string any)
| any_strings (l : list string)
| any_floats (l : list float64)
| any_byteslices (l : list string).

(** The document of [main.go]; [Items] is [[]map[string]any]. *)
Record exportFormat := {
  TableName : string;
  PrimaryKey : string;
  RangeKey : string;
  Items : list (gmap string any);
}.

(** *** [attributevalue]: decoding into [any]

    S is a string, N a [float64], B a byte slice, BOOL a bool, NULL nil,
    L a slice, M a map; the three set types are slices of their element
    type. *)
Fixpoint decode (av : AttributeValue) : option any :=
  match av with
  | MemberB b => Some (any_bytes b)
  | MemberBOOL b => Some (any_bool b)
  | MemberBS l => Some (any_byteslices l)
  | MemberL l => any_slice <$> mapM decode l
  | MemberM m => any_map <$> map_sequence (decode <$> m)
  | MemberN n => any_float64 <$> ParseFloat n
  | MemberNS l => any_floats <$> mapM ParseFloat l
  | MemberNULL _ => Some any_nil
  | MemberS s => Some (any_string s)
  | MemberSS l => Some (any_strings l)
  end.

Definition decode_item (it : Item) : option (gmap string any) :=
  map_sequence (decode <$> it).

(** [attributevalue.UnmarshalListOfMaps(items, &exportData.Items)] *)
Definition UnmarshalListOfMaps (items : list Item) : option (list (gmap string any)) :=
  mapM decode_item items.

(** *** [attributevalue]: encoding.  Typed slices, which no JSON text
    decodes to, become lists like the untyped one. *)
Fixpoint encode (v : any) : AttributeValue :=
  match v with
  | any_nil => MemberNULL true
  | any_bool b => MemberBOOL b
  | any_float64 f => MemberN (FormatFloat f)
  | any_string s => MemberS s
  | any_bytes b => MemberB b
  | any_slice l => MemberL (encode <$> l)
  | any_map m => MemberM (encode <$> m)
  | any_strings l => MemberL (MemberS <$> l)
  | any_floats l => MemberL ((λ f, MemberN (FormatFloat f)) <$> l)
  | any_byteslices l => MemberL (MemberB <$> l)
  end.

(** [attributevalue.MarshalMap(item)]; a nil map gives the empty item. *)
Definition MarshalMap (item : gmap string any) : Item := encode <$> item.

(** *** [json.Marshal] *)

Definition key_le (a b : string * JSON) : Prop := String.leb a.1 b.1.
#[local] Instance key_le_dec a b : Decision (key_le a b) := _.

(** The members of an object, sorted by name as [json.Marshal] writes a map. *)
Definition sorted_members (m : gmap string JSON) : list (string * JSON) :=
  merge_sort key_le (map_to_list m).

Fixpoint json_of_any (v : any) : option JSON :=
  match v with
  | any_nil => Some JNull
  | any_bool b => Some (JBool b)
  | any_float64 f => JNumber <$> json_float f
  | any_string s => Some (JString s)
  | any_bytes b => Some (JString (base64 b))
  | any_slice l => JArray <$> mapM json_of_any l
  | any_map m => (λ mj, JObject (sorted_members mj)) <$> map_sequence (json_of_any <$> m)
  | any_strings l => Some (JArray (JString <$> l))
  | any_floats l => JArray <$> mapM (λ f, JNumber <$> json_float f) l
  | any_byteslices l => Some (JArray ((λ b, JString (base64 b)) <$> l))
  end.

Definition json_of_item (it : gmap string any) : option JSON :=
  json_of_any (any_map it).

(** The fields of the struct in declaration order, under their Go names:
    the struct has no field tags.  [export] always holds a slice for
    [Items], empty at least, so it is written as an array. *)
Definition json_of_exportFormat (d : exportFormat) : option JSON :=
  items ← mapM json_of_item (Items d);
  Some (JObject [("TableName", JString (TableName d));
                 ("PrimaryKey", JString (PrimaryKey d));
                 ("RangeKey", JString (RangeKey d));
                 ("Items", JArray items)]).

Definition json_Marshal (d : exportFormat) : option string :=
  render <$> json_of_exportFormat d.

(** *** [json.Unmarshal] *)

Fixpoint to_any (j : JSON) : option any :=
  match j with
  | JNull => Some any_nil
  | JBool b => Some (any_bool b)
  | JNumber lit => any_float64 <$> ParseFloat lit
  | JString s => Some (any_string s)
  | JArray l => any_slice <$> mapM to_any l
  | JObject kvs =>
      (λ l, any_map (members_to_map l)) <$> mapM (λ kv, pair kv.1 <$> to_any kv.2) kvs
  end.

Definition to_members (kvs : list (string * JSON)) : option (list (string * any)) :=
  mapM (λ kv, pair kv.1 <$> to_any kv.2) kvs.

(** One element of [Items] read into the map [old] that the slice holds at
    its index: an object adds its members to the map, null resets it. *)
Definition to_item (old : gmap string any) (j : JSON) : option (gmap string any) :=
  match j with
  | JObject kvs => (λ l, foldl (λ m kv, <[kv.1 := kv.2]> m) old l) <$> to_members kvs
  | JNull => Some ∅
  | _ => None
  end.

(** An array read into the slice whose backing array holds [backing]. *)
Fixpoint to_items (backing : list (gmap string any)) (l : list JSON)
  : option (list (gmap string any)) :=
  match l with
  | [] => Some []
  | j :: l' =>
      it ← to_item (default ∅ (head backing)) j;
      its ← to_items (tail backing) l';
      Some (it :: its)
  end.

(** Field names match without regard to case, as [encoding/json] folds
    them: ASCII letters to upper case, and the two characters outside
    ASCII that fold to one: U+017F (long s) and U+212A (Kelvin sign). *)
Definition upper (c : ascii) : ascii :=
  let n := code c in
  if (97 <=? n)%N && (n <=? 122)%N then byte_of (n - 32) else c.

Fixpoint fold_name (s : string) : string :=
  match s with
  | EmptyString => EmptyString
  | String a r =>
      match r with
      | String b r' =>
          if (code a =? 197)%N && (code b =? 191)%N then String "S" (fold_name r')
          else
            match r' with
            | String c r'' =>
                if (code a =? 226)%N && (code b =? 132)%N && (code c =? 170)%N
                then String "K" (fold_name r'')
                else String (upper a) (fold_name r)
            | EmptyString => String (upper a) (fold_name r)
            end
      | EmptyString => String (upper a) EmptyString
      end
  end.

Definition string_field (v : JSON) (old : string) : option string :=
  match v with
  | JString s => Some s
  | JNull => Some old
  | _ => None
  end.

(** One member of the top-level object stored into the struct: a member
    that names no field is skipped, null leaves the field as it is, a
    value of the wrong type is an error. *)
Definition set_field (d : exportFormat) (kv : string * JSON) : option exportFormat :=
  let name := fold_name kv.1 in
  if String.eqb name "TABLENAME" then
    s ← string_field kv.2 (TableName d);
    Some {| TableName := s; PrimaryKey := PrimaryKey d; RangeKey := RangeKey d; Items := Items d |}
  else if String.eqb name "PRIMARYKEY" then
    s ← string_field kv.2 (PrimaryKey d);
    Some {| TableName := TableName d; PrimaryKey := s; RangeKey := RangeKey d; Items := Items d |}
  else if String.eqb name "RANGEKEY" then
    s ← string_field kv.2 (RangeKey d);
    Some {| TableName := TableName d; PrimaryKey := PrimaryKey d; RangeKey := s; Items := Items d |}
  else if String.eqb name "ITEMS" then
    match kv.2 with
    | JArray l =>
        its ← to_items (Items d) l;
        Some {| TableName := TableName d; PrimaryKey := PrimaryKey d; RangeKey := RangeKey d; Items := its |}
    | JNull => Some d
    | _ => None
    end
  else Some d.

(** [var data exportFormat]: the zero value. *)
Definition zero_exportFormat : exportFormat :=
  {| TableName := EmptyString; PrimaryKey := EmptyString; RangeKey := EmptyString; Items := [] |}.

Definition exportFormat_of_json (j : JSON) : option exportFormat :=
  match j with
  | JNull => Some zero_exportFormat
  | JObject kvs => foldl (λ od kv, d ← od; set_field d kv) (Some zero_exportFormat) kvs
  | _ => None
  end.

(** [json.Unmarshal(raw, &data)] on a zero [data]; [None] is a syntax
    error or a value of the wrong type. *)
Definition json_Unmarshal (raw : string) : option exportFormat :=
  j ← json_parse raw; exportFormat_of_json j.
End codecs.

Arguments any {_}.
Arguments exportFormat {_}.

(** Numbers for the integers a [float64] holds exactly (up to 2^53 in
    magnitude), written without sign, point or exponent but for a leading
    minus: the literals that all three conversions read and write alike. *)
Fixpoint digits_value (s : string) (acc : N) : option N :=
  match s with
  | EmptyString => Some acc
  | String c r => if is_digit c then digits_value r (acc * 10 + (code c - 48))%N else None
  end.

Definition parse_int (s : string) : option Z :=
  match s with
  | EmptyString => None
  | String c r =>
      if (code c =? 45)%N then
        match r with
        | EmptyString => None
        | String _ _ => n ← digits_value r 0; if (n =? 0)%N then None else Some (- Z.of_N n)%Z
        end
      else Z.of_N <$> digits_value s 0
  end.

Definition safe_int (z : Z) : bool := (- 2 ^ 53 <=? z)%Z && (z <=? 2 ^ 53)%Z.

Fixpoint print_digits (fuel : nat) (n : N) (acc : string) : string :=
  match fuel with
  | O => acc
  | S fuel =>
      let acc' := String (byte_of (48 + n mod 10)) acc in
      if (n <? 10)%N then acc' else print_digits fuel (n / 10)%N acc'
  end.

Definition print_int (z : Z) : string :=
  let n := Z.abs_N z in
  let ds := print_digits (S (N.to_nat (N.log2 n))) n EmptyString in
  if (z <? 0)%Z then String "-" ds else ds.

#[export] Instance IntFloat64 : Float64 := {|
  float64 := Z;
  ParseFloat s := z ← parse_int s; if safe_int z then Some z else None;
  FormatFloat := print_int;
  json_float z := Some (print_int z);
|}.


(** ** The world the program runs in *)

Inductive error :=
| ErrService (code : string)   (** an error answer of the store *)
| ErrConfig                    (** no configuration for the store's client *)
| ErrDecode                    (** [attributevalue]: a record does not decode *)
| ErrMarshal                   (** [json.Marshal]: a value JSON cannot hold *)
| ErrUnmarshal                 (** [json.Unmarshal]: bad syntax or a wrong type *)
| ErrReadFile (path : string)  (** [os.ReadFile] *)
| ErrNoMorePages               (** the paginator, asked beyond the last page *)
| ErrPrompt (msg : string).    (** the form could not run or was aborted *)

Inductive KeyType := KeyTypeHash | KeyTypeRange.

Record KeySchemaElement := {
  AttributeName : string;
  KeyType_ : KeyType;
}.

Inductive ScalarAttributeType := ScalarAttributeTypeS | ScalarAttributeTypeN | ScalarAttributeTypeB.

Record AttributeDefinition := {
  ad_AttributeName : string;
  ad_AttributeType : ScalarAttributeType;
}.

(** What [DescribeTable] tells of a table, as far as the program reads it. *)
Record TableDescription := {
  td_TableName : string;
  td_KeySchema : list KeySchemaElement;
  td_AttributeDefinitions : list AttributeDefinition;
}.

(** A table of the store: its schema and its items in the order a scan
    returns them. *)
Record Table := {
  tbl_KeySchema : list KeySchemaElement;
  tbl_AttributeDefinitions : list AttributeDefinition;
  tbl_items : list Item;
}.

(** The value of a key attribute; keys are strings, numbers or binary. *)
Inductive KeyValue := KeyS (s : string) | KeyN (n : string) | KeyB (b : string).

#[global] Instance KeyType_eq_dec : EqDecision KeyType.
Proof. solve_decision. Defined.
#[global] Instance ScalarAttributeType_eq_dec : EqDecision ScalarAttributeType.
Proof. solve_decision. Defined.
#[global] Instance KeyValue_eq_dec : EqDecision KeyValue.
Proof. solve_decision. Defined.
#[global] Instance error_eq_dec : EqDecision error.
Proof. solve_decision. Defined.

Definition attribute_type (defs : list AttributeDefinition) (name : string)
  : option ScalarAttributeType :=
  ad_AttributeType <$> List.find (λ d, String.eqb (ad_AttributeName d) name) defs.

Definition key_value (ty : ScalarAttributeType) (av : AttributeValue) : option KeyValue :=
  match ty, av with
  | ScalarAttributeTypeS, MemberS s => Some (KeyS s)
  | ScalarAttributeTypeN, MemberN n => Some (KeyN n)
  | ScalarAttributeTypeB, MemberB b => Some (KeyB b)
  | _, _ => None
  end.

(** The key of an item under a table's schema: the values of its key
    attributes; [None] when one is missing or of another type than the
    table declares, which is when the store refuses the item. *)
Definition item_key (t : Table) (it : Item) : option (list KeyValue) :=
  mapM (λ k, av ← it !! AttributeName k;
             ty ← attribute_type (tbl_AttributeDefinitions t) (AttributeName k);
             key_value ty av)
       (tbl_KeySchema t).

(** Unconditional write: the item replaces the one of the same key, or is
    new and comes last. *)
Fixpoint put_item (t : Table) (k : list KeyValue) (it : Item) (l : list Item) : list Item :=
  match l with
  | [] => [it]
  | x :: l' =>
      if decide (item_key t x = Some k) then it :: l' else x :: put_item t k it l'
  end.

(** What the prompt leaves behind: the value of the variable the form
    writes the answer to, and the error [Run] returns. *)
Record PromptOutcome := {
  po_confirm : bool;
  po_err : option error;
}.

(** The requests the store has received, each with the error it was
    answered with, and the prompts shown. *)
Inductive Event :=
| EvDescribeTable (table : string) (err : option error)
| EvScan (table : string) (start : option nat) (err : option error)
| EvPutItem (table : string) (item : Item) (err : option error)
| EvPrompt (title : string).

Record World := {
  w_tables : gmap string Table;
  (** a page of a scan holds [S w_scan_limit] items at most *)
  w_scan_limit : nat;
  (** failures of the store or the network: one entry per request to
      come, [Some e] makes that request fail with [e] *)
  w_faults : list (option error);
  w_files : gmap string string;
  (** what the user does at each prompt to come *)
  w_prompts : list PromptOutcome;
  w_config : option error;
  w_log : list Event;
  w_stdout : list string;
  w_stderr : list string;
}.

Definition set_tables (ts : gmap string Table) (w : World) : World :=
  {| w_tables := ts; w_scan_limit := w_scan_limit w; w_faults := w_faults w;
     w_files := w_files w; w_prompts := w_prompts w; w_config := w_config w;
     w_log := w_log w; w_stdout := w_stdout w; w_stderr := w_stderr w |}.

Definition set_faults (fs : list (option error)) (w : World) : World :=
  {| w_tables := w_tables w; w_scan_limit := w_scan_limit w; w_faults := fs;
     w_files := w_files w; w_prompts := w_prompts w; w_config := w_config w;
     w_log := w_log w; w_stdout := w_stdout w; w_stderr := w_stderr w |}.

Definition set_files (fs : gmap string string) (w : World) : World :=
  {| w_tables := w_tables w; w_scan_limit := w_scan_limit w; w_faults := w_faults w;
     w_files := fs; w_prompts := w_prompts w; w_config := w_config w;
     w_log := w_log w; w_stdout := w_stdout w; w_stderr := w_stderr w |}.

Definition set_prompts (ps : list PromptOutcome) (w : World) : World :=
  {| w_tables := w_tables w; w_scan_limit := w_scan_limit w; w_faults := w_faults w;
     w_files := w_files w; w_prompts := ps; w_config := w_config w;
     w_log := w_log w; w_stdout := w_stdout w; w_stderr := w_stderr w |}.

Definition log_event (ev : Event) (w : World) : World :=
  {| w_tables := w_tables w; w_scan_limit := w_scan_limit w; w_faults := w_faults w;
     w_files := w_files w; w_prompts := w_prompts w; w_config := w_config w;
     w_log := w_log w ++ [ev]; w_stdout := w_stdout w; w_stderr := w_stderr w |}.

Definition print_stdout (s : string) (w : World) : World :=
  {| w_tables := w_tables w; w_scan_limit := w_scan_limit w; w_faults := w_faults w;
     w_files := w_files w; w_prompts := w_prompts w; w_config := w_config w;
     w_log := w_log w; w_stdout := w_stdout w ++ [s]; w_stderr := w_stderr w |}.

Definition print_stderr (s : string) (w : World) : World :=
  {| w_tables := w_tables w; w_scan_limit := w_scan_limit w; w_faults := w_faults w;
     w_files := w_files w; w_prompts := w_prompts w; w_config := w_config w;
     w_log := w_log w; w_stdout := w_stdout w; w_stderr := w_stderr w ++ [s] |}.

(** ** Go functions: a state and error monad over the world.  A third
    outcome marks a loop that was given too little fuel. *)

Inductive Result (A : Type) :=
| Ok (a : A)
| Err (e : error)
| OutOfFuel.
Arguments Ok {A} a.
Arguments Err {A} e.
Arguments OutOfFuel {A}.

Definition Go (A : Type) : Type := World → World * Result A.

#[global] Instance Go_ret : MRet Go := λ A a w, (w, Ok a).

#[global] Instance Go_bind : MBind Go := λ A B k m w,
  match m w with
  | (w', Ok a) => k a w'
  | (w', Err e) => (w', Err e)
  | (w', OutOfFuel) => (w', OutOfFuel)
  end.

Definition fail {A} (e : error) : Go A := λ w, (w, Err e).

(** An optional result turned into a Go result with error [e]. *)
Definition or_fail {A} (e : error) (o : option A) : Go A :=
  match o with Some a => mret a | None => fail e end.

(** ** The store's API *)

(** One request: it takes the next entry of the fault schedule; a
    scheduled failure is answered without touching the tables, otherwise
    the operation [run] decides.  The request and its outcome are logged. *)
Definition request {A} (ev : option error → Event)
    (run : gmap string Table → error + (gmap string Table * A)) : Go A := λ w,
  let w1 := set_faults (tail (w_faults w)) w in
  match head (w_faults w) with
  | Some (Some e) => (log_event (ev (Some e)) w1, Err e)
  | _ =>
      match run (w_tables w) with
      | inl e => (log_event (ev (Some e)) w1, Err e)
      | inr (ts, a) => (log_event (ev None) (set_tables ts w1), Ok a)
      end
  end.

Definition ResourceNotFoundException : error := ErrService "ResourceNotFoundException".
Definition ValidationException : error := ErrService "ValidationException".

Definition DescribeTable (name : string) : Go TableDescription :=
  request (EvDescribeTable name) (λ ts,
    match ts !! name with
    | Some t => inr (ts, {| td_TableName := name;
                            td_KeySchema := tbl_KeySchema t;
                            td_AttributeDefinitions := tbl_AttributeDefinitions t |})
    | None => inl ResourceNotFoundException
    end).

Record ScanOutput := {
  so_Items : list Item;
  (** where the next page starts, if there is one *)
  so_LastEvaluatedKey : option nat;
}.

Definition Scan (limit : nat) (name : string) (ExclusiveStartKey : option nat) : Go ScanOutput :=
  request (EvScan name ExclusiveStartKey) (λ ts,
    match ts !! name with
    | Some t =>
        let start := default 0 ExclusiveStartKey in
        let rest := drop start (tbl_items t) in
        inr (ts, {| so_Items := take (S limit) rest;
                    so_LastEvaluatedKey :=
                      if decide (S limit < length rest) then Some (start + S limit) else None |})
    | None => inl ResourceNotFoundException
    end).

Definition PutItem (name : string) (item : Item) : Go unit :=
  request (EvPutItem name item) (λ ts,
    match ts !! name with
    | Some t =>
        match item_key t item with
        | Some k =>
            inr (<[name := {| tbl_KeySchema := tbl_KeySchema t;
                              tbl_AttributeDefinitions := tbl_AttributeDefinitions t;
                              tbl_items := put_item t k item (tbl_items t) |}]> ts, tt)
        | None => inl ValidationException
        end
    | None => inl ResourceNotFoundException
    end).

(** *** [dynamodb.ScanPaginator] *)

Record ScanPaginator := {
  sp_TableName : string;
  sp_nextToken : option nat;
  sp_firstPage : bool;
}.

Definition NewScanPaginator (name : string) : ScanPaginator :=
  {| sp_TableName := name; sp_nextToken := None; sp_firstPage := true |}.

Definition HasMorePages (p : ScanPaginator) : bool :=
  sp_firstPage p || bool_decide (is_Some (sp_nextToken p)).

Definition NextPage (p : ScanPaginator) : Go (ScanOutput * ScanPaginator) :=
  if HasMorePages p then
    λ w, (result ← Scan (w_scan_limit w) (sp_TableName p) (sp_nextToken p);
          mret (result, {| sp_TableName := sp_TableName p;
                           sp_nextToken := so_LastEvaluatedKey result;
                           sp_firstPage := false |})) w
  else fail ErrNoMorePages.

(** ** Files and the prompt *)

Definition os_ReadFile (path : string) : Go string := λ w,
  match w_files w !! path with
  | Some raw => (w, Ok raw)
  | None => (w, Err (ErrReadFile path))
  end.

(** [form.Run()] of a form with one confirm field bound to [&confirm]:
    returns the value the variable holds afterwards and the error of
    [Run].  With nobody to answer, the form fails and the variable keeps
    its value. *)
Definition form_Run (title : string) (confirm : bool) : Go (bool * option error) := λ w,
  let w1 := log_event (EvPrompt title) (set_prompts (tail (w_prompts w)) w) in
  match head (w_prompts w) with
  | Some po => (w1, Ok (po_confirm po, po_err po))
  | None => (w1, Ok (confirm, Some (ErrPrompt "could not open a new TTY")))
  end.

(** ** [main.go] *)

Section program.
Context `{Float64}.

(** [for _, key := range table.Table.KeySchema]: the body of the loop. *)
Definition export_key (d : exportFormat) (key : KeySchemaElement) : exportFormat :=
  let d :=
    if decide (KeyType_ key = KeyTypeHash)
    then {| TableName := TableName d; PrimaryKey := AttributeName key;
            RangeKey := RangeKey d; Items := Items d |}
    else d in
  if decide (KeyType_ key = KeyTypeRange)
  then {| TableName := TableName d; PrimaryKey := PrimaryKey d;
          RangeKey := AttributeName key; Items := Items d |}
  else d.

(** [for paginator.HasMorePages()]: one unit of fuel per page. *)
Fixpoint scan_pages (fuel : nat) (paginator : ScanPaginator) (items : list Item)
  : Go (list Item) :=
  if HasMorePages paginator then
    match fuel with
    | O => λ w, (w, OutOfFuel)
    | S fuel =>
        '(output, paginator) ← NextPage paginator;
        scan_pages fuel paginator (items ++ so_Items output)
    end
  else mret items.

Definition export (fuel : nat) (tableName : string) : Go string :=
  table ← DescribeTable tableName;
  let exportData := {| TableName := td_TableName table; PrimaryKey := EmptyString;
                       RangeKey := EmptyString; Items := [] |} in
  let exportData := foldl export_key exportData (td_KeySchema table) in
  let paginator := NewScanPaginator tableName in
  items ← scan_pages fuel paginator [];
  its ← or_fail ErrDecode (UnmarshalListOfMaps items);
  let exportData := {| TableName := TableName exportData; PrimaryKey := PrimaryKey exportData;
                       RangeKey := RangeKey exportData; Items := its |} in
  dump ← or_fail ErrMarshal (json_Marshal exportData);
  mret dump.

Definition confirm_title (tableName : string) : string :=
  "This will import data into " +:+ tableName +:+ "! Do you want to continue?".

(** [for _, item := range data.Items] *)
Fixpoint put_items (tableName : string) (items : list (gmap string any)) : Go unit :=
  match items with
  | [] => mret tt
  | item :: items =>
      let mapdata := MarshalMap item in
      PutItem tableName mapdata;;
      put_items tableName items
  end.

Definition importFromFile (tableName path : string) : Go unit :=
  raw ← os_ReadFile path;
  data ← or_fail ErrUnmarshal (json_Unmarshal raw);
  '(confirm, _) ← form_Run (confirm_title tableName) false;
  if negb confirm then mret tt
  else put_items tableName (Items data).

(** The text [usage] prints, a raw string literal that starts and ends
    with a line break. *)
Definition usage : string := "
DynamoDB Migrator
=================

To export:

ddbm --table foo

This will print to STDOUT, so direct the output to a file:

ddbm --table foo > /path/to/file.json

To import:

ddbm --table foo --import /path/to/file.json
".

Definition error_text (e : error) : string :=
  match e with
  | ErrService c => c
  | ErrConfig => "failed to load configuration"
  | ErrDecode => "unmarshal failed"
  | ErrMarshal => "json: unsupported value"
  | ErrUnmarshal => "json: cannot unmarshal"
  | ErrReadFile path => "open " +:+ path +:+ ": no such file or directory"
  | ErrNoMorePages => "no more pages available"
  | ErrPrompt m => m
  end.

(** [log.Fatal(err)]: the error on standard error, exit status 1. *)
Definition log_Fatal (e : error) (w : World) : World * nat :=
  (print_stderr (error_text e) w, 1).

(** [main], for the flags [--table] and [--import]; returns the exit
    status.  [fuel] bounds the pages of the scan. *)
Definition main (fuel : nat) (tableName importPath : string) (w : World) : World * nat :=
  if decide (tableName = EmptyString) then (print_stdout usage w, 1)
  else
    match w_config w with
    | Some e => log_Fatal e w
    | None =>
        if decide (importPath ≠ EmptyString) then
          match importFromFile tableName importPath w with
          | (w', Err e) => log_Fatal e w'
          | (w', _) => (w', 0)
          end
        else
          match export fuel tableName w with
          | (w', Ok out) => (print_stdout out w', 0)
          | (w', Err e) => log_Fatal e w'
          | (w', OutOfFuel) => (w', 2)
          end
    end.
End program.


(** * Properties *)

(** ** Requests and their traces *)

Definition result_err {A} (r : Result A) : option error :=
  match r with Err e => Some e | _ => None end.

Definition event_err (ev : Event) : option error :=
  match ev with
  | EvDescribeTable _ e | EvScan _ _ e | EvPutItem _ _ e => e
  | EvPrompt _ => None
  end.

(** A describe-table or scan request on table [tn]. *)
Definition is_read (tn : string) (ev : Event) : Prop :=
  match ev with
  | EvDescribeTable n _ | EvScan n _ _ => n = tn
  | _ => False
  end.

Definition is_scan (ev : Event) : Prop :=
  match ev with EvScan _ _ _ => True | _ => False end.

Definition is_put (ev : Event) : Prop :=
  match ev with EvPutItem _ _ _ => True | _ => False end.

(** What a request leaves alone. *)
Definition same_env (w w' : World) : Prop :=
  w_scan_limit w' = w_scan_limit w ∧ w_files w' = w_files w ∧
  w_prompts w' = w_prompts w ∧ w_config w' = w_config w ∧
  w_stdout w' = w_stdout w ∧ w_stderr w' = w_stderr w.

Lemma same_env_refl w : same_env w w.
Proof. by repeat split. Qed.

Lemma same_env_trans w1 w2 w3 : same_env w1 w2 → same_env w2 w3 → same_env w1 w3.
Proof. unfold same_env. intros (?&?&?&?&?&?) (?&?&?&?&?&?). repeat split; congruence. Qed.

(** The events a run added to the log. *)
Definition new_events (w w' : World) : list Event :=
  drop (length (w_log w)) (w_log w').

Lemma new_events_app w w' evs : w_log w' = w_log w ++ evs → new_events w w' = evs.
Proof. unfold new_events. intros ->. by rewrite drop_app_length. Qed.

Lemma request_inv {A} ev run w w' (r : Result A) :
  request ev run w = (w', r) →
  same_env w w' ∧ w_faults w' = tail (w_faults w) ∧
  w_log w' = w_log w ++ [ev (result_err r)] ∧
  match r with
  | Ok a => run (w_tables w) = inr (w_tables w', a) ∧
            ∀ e, head (w_faults w) ≠ Some (Some e)
  | Err e => w_tables w' = w_tables w ∧
             (head (w_faults w) = Some (Some e) ∨
              (run (w_tables w) = inl e ∧ ∀ e', head (w_faults w) ≠ Some (Some e')))
  | OutOfFuel => False
  end.
Proof.
  unfold request. intros Hr.
  destruct (head (w_faults w)) as [[e|]|] eqn:Hf.
  - inversion Hr; subst; simpl. repeat split; auto.
  - destruct (run (w_tables w)) as [e|[ts a]] eqn:Hrun; inversion Hr; subst; simpl;
      repeat split; auto; try congruence; try (right; split; [done | congruence]).
  - destruct (run (w_tables w)) as [e|[ts a]] eqn:Hrun; inversion Hr; subst; simpl;
      repeat split; auto; try congruence; try (right; split; [done | congruence]).
Qed.

Lemma bind_inv {A B} (m : Go A) (k : A → Go B) w w' r :
  (m ≫= k) w = (w', r) →
  (∃ w1 a, m w = (w1, Ok a) ∧ k a w1 = (w', r)) ∨
  (∃ e, m w = (w', Err e) ∧ r = Err e) ∨
  (m w = (w', OutOfFuel) ∧ r = OutOfFuel).
Proof.
  unfold mbind, Go_bind. destruct (m w) as [w1 [a|e|]]; intros Hk.
  - left. eauto.
  - right. left. inversion Hk; subst. eauto.
  - right. right. by inversion Hk; subst.
Qed.

Section traces.
Context `{Float64}.

(** How a read-only run relates the world before and after: the tables
    and the surroundings are the same, the log grew by requests that read
    table [tn], and a failed request among them has made the run fail
    with the error of that request ([re] is the error of the run). *)
Definition read_run (tn : string) (w w' : World) (re : option error) : Prop :=
  w_tables w' = w_tables w ∧ same_env w w' ∧
  ∃ evs, w_log w' = w_log w ++ evs ∧ Forall (is_read tn) evs ∧
         (∀ ev, ev ∈ evs → event_err ev ≠ None → re = event_err ev).

Lemma read_run_skip tn w re : read_run tn w w re.
Proof.
  split; [done|]. split; [apply same_env_refl|].
  exists []. rewrite app_nil_r. repeat split; [constructor|]. by intros ev ?%elem_of_nil.
Qed.

Lemma read_run_bind tn w w1 w2 re :
  read_run tn w w1 None → read_run tn w1 w2 re → read_run tn w w2 re.
Proof.
  intros (Ht1 & He1 & evs1 & Hl1 & Hr1 & Hf1) (Ht2 & He2 & evs2 & Hl2 & Hr2 & Hf2).
  split; [congruence|]. split; [by eapply same_env_trans|].
  exists (evs1 ++ evs2). split; [by rewrite Hl2, Hl1, app_assoc|].
  split; [by apply Forall_app|].
  intros ev [Hin|Hin]%elem_of_app Herr; [|by apply Hf2].
  specialize (Hf1 ev Hin Herr). congruence.
Qed.

Lemma DescribeTable_read tn w w' r :
  DescribeTable tn w = (w', r) → read_run tn w w' (result_err r).
Proof.
  intros (He & _ & Hl & Hr)%request_inv.
  assert (w_tables w' = w_tables w) as Ht.
  { destruct r as [a|e|]; [|tauto|done]. destruct Hr as [Hr _].
    destruct (w_tables w !! tn); by inversion Hr. }
  split; [done|]. split; [done|]. eexists. split; [done|].
  split; [by repeat constructor|].
  by intros ev ->%list_elem_of_singleton.
Qed.

Lemma Scan_read limit tn start w w' r :
  Scan limit tn start w = (w', r) → read_run tn w w' (result_err r).
Proof.
  intros (He & _ & Hl & Hr)%request_inv.
  assert (w_tables w' = w_tables w) as Ht.
  { destruct r as [a|e|]; [|tauto|done]. destruct Hr as [Hr _].
    destruct (w_tables w !! tn); by inversion Hr. }
  split; [done|]. split; [done|]. eexists. split; [done|].
  split; [by repeat constructor|].
  by intros ev ->%list_elem_of_singleton.
Qed.

Lemma NextPage_read p w w' r :
  NextPage p w = (w', r) → read_run (sp_TableName p) w w' (result_err r).
Proof.
  unfold NextPage. destruct (HasMorePages p).
  - intros [(w1 & a & Hs & Hk)|[(e & Hs & ->)|[Hs ->]]]%bind_inv.
    + inversion Hk; subst. by apply Scan_read in Hs.
    + by apply Scan_read in Hs.
    + by apply Scan_read in Hs.
  - intros Hr. inversion Hr; subst. apply read_run_skip.
Qed.

Lemma scan_pages_read fuel p items w w' r :
  scan_pages fuel p items w = (w', r) → read_run (sp_TableName p) w w' (result_err r).
Proof.
  revert p items w. induction fuel as [|fuel IH]; intros p items w; simpl.
  - destruct (HasMorePages p); intros Hr; inversion Hr; subst; apply read_run_skip.
  - destruct (HasMorePages p) eqn:Hmore; [|intros Hr; inversion Hr; subst; apply read_run_skip].
    intros [(w1 & [out p'] & Hn & Hk)|[(e & Hn & ->)|[Hn ->]]]%bind_inv.
    + assert (sp_TableName p' = sp_TableName p) as Hname.
      { unfold NextPage in Hn. rewrite Hmore in Hn.
        apply bind_inv in Hn as [(w2 & a & _ & Hk')|[(e & _ & ?)|[_ ?]]]; [|done..].
        by inversion Hk'. }
      apply NextPage_read in Hn. apply IH in Hk. rewrite Hname in Hk.
      by eapply read_run_bind.
    + by apply NextPage_read in Hn.
    + by apply NextPage_read in Hn.
Qed.

Lemma or_fail_inv {A} e (o : option A) w w' r :
  or_fail e o w = (w', r) →
  w' = w ∧ ((∃ a, o = Some a ∧ r = Ok a) ∨ (o = None ∧ r = Err e)).
Proof.
  destruct o; intros Hr; inversion Hr; subst; split; eauto.
Qed.

Lemma export_read fuel tableName w w' r :
  export fuel tableName w = (w', r) → read_run tableName w w' (result_err r).
Proof.
  unfold export.
  intros [(w1 & table & Hd & Hk)|[(e & Hd & ->)|[Hd ->]]]%bind_inv;
    apply DescribeTable_read in Hd; [|done..].
  apply bind_inv in Hk as [(w2 & items & Hs & Hk)|[(e & Hs & ->)|[Hs ->]]];
    apply scan_pages_read in Hs; simpl in Hs; [|by eapply read_run_bind..].
  eapply read_run_bind; [exact Hd|]. eapply read_run_bind; [exact Hs|].
  assert (w' = w2) as ->; [|apply read_run_skip].
  apply bind_inv in Hk as [(w3 & its & [-> _]%or_fail_inv & Hk)|[(e & [-> _]%or_fail_inv & ->)|[[-> _]%or_fail_inv _]]];
    [|done..].
  apply bind_inv in Hk as [(w4 & dump & [-> _]%or_fail_inv & Hk)|[(e & [-> _]%or_fail_inv & ->)|[[-> _]%or_fail_inv _]]];
    [|done..].
  by inversion Hk.
Qed.
End traces.

(** ** A table [foo] with hash key [id] *)

Definition foo_table (items : list Item) : Table :=
  {| tbl_KeySchema := [ {| AttributeName := "id"; KeyType_ := KeyTypeHash |} ];
     tbl_AttributeDefinitions :=
       [ {| ad_AttributeName := "id"; ad_AttributeType := ScalarAttributeTypeS |} ];
     tbl_items := items |}.

Definition item_a : Item := {[ "id" := MemberS "a"; "v" := MemberN "1" ]}.
Definition item_b : Item := {[ "id" := MemberS "b"; "v" := MemberN "2" ]}.
Definition item_c : Item := {[ "id" := MemberS "c"; "v" := MemberN "3" ]}.

Definition yes : PromptOutcome := {| po_confirm := true; po_err := None |}.
Definition no : PromptOutcome := {| po_confirm := false; po_err := None |}.

(** A world with the one table [foo], pages of one item, and the given
    faults, files and prompt outcomes. *)
Definition foo_world (items : list Item) (faults : list (option error))
    (files : gmap string string) (prompts : list PromptOutcome) : World :=
  {| w_tables := {[ "foo" := foo_table items ]}; w_scan_limit := 0;
     w_faults := faults; w_files := files; w_prompts := prompts;
     w_config := None; w_log := []; w_stdout := []; w_stderr := [] |}.

Definition timeout : error := ErrService "RequestTimeout".

Section export_properties.
Context `{Float64}.

(** C10: a run of export, whether it succeeds or fails, leaves every table
    as it was and sends the store nothing but describe-table and scan
    requests on the table it was asked to export: no put-item request. *)
Theorem export_is_read_only fuel tableName w :
  let w' := (export fuel tableName w).1 in
  w_tables w' = w_tables w ∧
  Forall (is_read tableName) (new_events w w') ∧
  ∀ ev, ev ∈ new_events w w' → ¬ is_put ev.
Proof.
  destruct (export fuel tableName w) as [w' r] eqn:He. simpl.
  apply export_read in He as (Ht & _ & evs & Hl & Hr & _).
  rewrite (new_events_app _ _ _ Hl). repeat split; [done..|].
  intros ev Hin Hp. rewrite Forall_forall in Hr. specialize (Hr ev Hin).
  by destruct ev.
Qed.

(** C5: when a scan request of an export fails, on the first page or on a
    later one, export returns that error and no document, and [main]
    prints nothing on standard output and exits with status 1: the items
    of the pages read before are dropped. *)
Theorem export_scan_failure fuel tableName w w' r start e :
  export fuel tableName w = (w', r) →
  EvScan tableName start (Some e) ∈ new_events w w' →
  r = Err e ∧
  (tableName ≠ EmptyString → w_config w = None →
   ∃ w'', main fuel tableName EmptyString w = (w'', 1) ∧ w_stdout w'' = w_stdout w).
Proof.
  intros He Hin. pose proof He as (Ht & Henv & evs & Hl & Hr & Hf)%export_read.
  rewrite (new_events_app _ _ _ Hl) in Hin.
  specialize (Hf _ Hin). simpl in Hf.
  assert (r = Err e) as ->. { destruct r; naive_solver. }
  split; [done|]. intros Hne Hcfg. unfold main.
  rewrite decide_False by done. rewrite Hcfg, decide_False by naive_solver.
  rewrite He. eexists. split; [done|]. simpl. apply Henv.
Qed.
End export_properties.

(** Three items in pages of one; the request for the second page times out. *)
Lemma export_scan_failure_witness :
  let w := foo_world [item_a; item_b; item_c] [None; None; Some timeout] ∅ [] in
  (export 5 "foo" w).2 = Err timeout ∧
  ∃ w'', main 5 "foo" EmptyString w = (w'', 1) ∧ w_stdout w'' = [].
Proof.
  intros w.
  destruct (export 5 "foo" w) as [w' r] eqn:He.
  destruct (export_scan_failure 5 "foo" w w' r (Some 1) timeout He) as [-> Hmain].
  - vm_compute in He. injection He as <- <-. vm_compute. repeat constructor.
  - split; [done|]. by apply Hmain.
Defined.

(** ** The document export builds *)

Definition hash_key (name : string) : KeySchemaElement :=
  {| AttributeName := name; KeyType_ := KeyTypeHash |}.
Definition range_key (name : string) : KeySchemaElement :=
  {| AttributeName := name; KeyType_ := KeyTypeRange |}.

Section export_document.
Context `{Float64}.

(** [exportData] as it stands when it is serialized. *)
Definition export_doc (tn : string) (t : Table) (its : list (gmap string any)) : exportFormat :=
  let d := foldl export_key
             {| TableName := tn; PrimaryKey := EmptyString; RangeKey := EmptyString; Items := [] |}
             (tbl_KeySchema t) in
  {| TableName := TableName d; PrimaryKey := PrimaryKey d; RangeKey := RangeKey d; Items := its |}.

Lemma foldl_export_key_TableName ks d :
  TableName (foldl export_key d ks) = TableName d.
Proof.
  revert d. induction ks as [|k ks IH]; intros d; simpl; [done|].
  rewrite IH. unfold export_key. by repeat case_decide.
Qed.

Lemma DescribeTable_Ok tn w w1 table :
  DescribeTable tn w = (w1, Ok table) →
  ∃ t, w_tables w !! tn = Some t ∧
       table = {| td_TableName := tn; td_KeySchema := tbl_KeySchema t;
                  td_AttributeDefinitions := tbl_AttributeDefinitions t |}.
Proof.
  intros (_ & _ & _ & Hr & _)%request_inv.
  destruct (w_tables w !! tn) as [t|]; [|done]. inversion Hr. eauto.
Qed.

Lemma export_Ok_inv fuel tn w w' out :
  export fuel tn w = (w', Ok out) →
  ∃ t w1 table items its,
    w_tables w !! tn = Some t ∧
    DescribeTable tn w = (w1, Ok table) ∧
    scan_pages fuel (NewScanPaginator tn) [] w1 = (w', Ok items) ∧
    UnmarshalListOfMaps items = Some its ∧
    json_Marshal (export_doc tn t its) = Some out.
Proof.
  unfold export.
  intros [(w1 & table & Hd & Hk)|[(e & _ & ?)|[_ ?]]]%bind_inv; [|done..].
  apply bind_inv in Hk as [(w2 & items & Hs & Hk)|[(e & _ & ?)|[_ ?]]]; [|done..].
  apply bind_inv in Hk as [(w3 & its & [-> Hu]%or_fail_inv & Hk)|[(e & _ & ?)|[_ ?]]]; [|done..].
  apply bind_inv in Hk as [(w4 & dump & [-> Hm]%or_fail_inv & Hk)|[(e & _ & ?)|[_ ?]]]; [|done..].
  inversion Hk; subst.
  destruct Hu as [(? & Hu & [= <-])|[_ ?]]; [|done].
  destruct Hm as [(? & Hm & [= <-])|[_ ?]]; [|done].
  destruct (DescribeTable_Ok _ _ _ _ Hd) as (t & Ht & ->).
  exists t, w1. eexists _, items, its. by repeat split.
Qed.

(** The JSON tree of a document with the given fields. *)
Definition document (tn pk rk : string) (items : list JSON) : JSON :=
  JObject [("TableName", JString tn); ("PrimaryKey", JString pk);
           ("RangeKey", JString rk); ("Items", JArray items)].

Lemma json_Marshal_inv d out :
  json_Marshal d = Some out →
  ∃ items, mapM json_of_item (Items d) = Some items ∧
           out = render (document (TableName d) (PrimaryKey d) (RangeKey d) items).
Proof.
  unfold json_Marshal, json_of_exportFormat. intros Hm.
  destruct (mapM json_of_item (Items d)) as [items|]; [|done].
  simpl in Hm. inversion Hm. eauto.
Qed.

(** X5 (C6): in the document of a successful export, for a table whose key
    schema is a hash key alone, [PrimaryKey] is its name and [RangeKey] is
    the empty string; for a table with a hash key and a range key (their
    names are not empty) [PrimaryKey] and [RangeKey] are the two names,
    neither of them empty. *)
Theorem export_key_fields fuel tableName w w' out t :
  w_tables w !! tableName = Some t →
  export fuel tableName w = (w', Ok out) →
  ∃ pk rk items,
    out = render (document tableName pk rk items) ∧
    (∀ h, tbl_KeySchema t = [hash_key h] → pk = h ∧ rk = EmptyString) ∧
    (∀ h r, tbl_KeySchema t = [hash_key h; range_key r] →
            h ≠ EmptyString → r ≠ EmptyString →
            pk = h ∧ rk = r ∧ pk ≠ EmptyString ∧ rk ≠ EmptyString).
Proof.
  intros Ht (t' & w1 & table & items & its & Ht' & _ & _ & _ & Hm)%export_Ok_inv.
  assert (t' = t) as -> by congruence.
  apply json_Marshal_inv in Hm as (js & _ & ->).
  eexists _, _, js. split.
  { unfold export_doc; simpl. by rewrite foldl_export_key_TableName. }
  split.
  - intros h Hks. simpl. by rewrite Hks.
  - intros h r Hks Hh Hr. simpl. by rewrite Hks.
Qed.
End export_document.

Definition orders_table (items : list Item) : Table :=
  {| tbl_KeySchema := [hash_key "customer"; range_key "order"];
     tbl_AttributeDefinitions :=
       [ {| ad_AttributeName := "customer"; ad_AttributeType := ScalarAttributeTypeS |};
         {| ad_AttributeName := "order"; ad_AttributeType := ScalarAttributeTypeN |} ];
     tbl_items := items |}.

Definition orders_world (items : list Item) : World :=
  {| w_tables := {[ "orders" := orders_table items ]}; w_scan_limit := 1;
     w_faults := []; w_files := ∅; w_prompts := [];
     w_config := None; w_log := []; w_stdout := []; w_stderr := [] |}.

Definition order_1 : Item :=
  {[ "customer" := MemberS "ann"; "order" := MemberN "1"; "paid" := MemberBOOL true ]}.
Definition order_2 : Item :=
  {[ "customer" := MemberS "ann"; "order" := MemberN "2"; "paid" := MemberBOOL false ]}.

(** The table [foo] (hash key only) and the table [orders] (hash and range key). *)
Lemma export_key_fields_witness :
  (∃ out pk rk items,
     (export 5 "foo" (foo_world [item_a; item_b] [] ∅ [])).2 = Ok out ∧
     out = render (document "foo" pk rk items) ∧ pk = "id" ∧ rk = EmptyString) ∧
  (∃ out pk rk items,
     (export 5 "orders" (orders_world [order_1; order_2])).2 = Ok out ∧
     out = render (document "orders" pk rk items) ∧ pk = "customer" ∧ rk = "order").
Proof.
  split.
  - set (w := foo_world [item_a; item_b] [] ∅ []).
    destruct (export 5 "foo" w) as [w' r] eqn:He.
    assert (∃ out, r = Ok out) as [out ->].
    { vm_compute in He. injection He as _ <-. eauto. }
    assert (w_tables w !! "foo" = Some (foo_table [item_a; item_b])) as Ht by (by vm_compute).
    destruct (export_key_fields 5 "foo" w w' out _ Ht He) as (pk & rk & items & -> & Hh & _).
    destruct (Hh "id" eq_refl) as [-> ->]. clear He Ht Hh.
    eexists _, _, _, _. repeat split; reflexivity.
  - set (w := orders_world [order_1; order_2]).
    destruct (export 5 "orders" w) as [w' r] eqn:He.
    assert (∃ out, r = Ok out) as [out ->].
    { vm_compute in He. injection He as _ <-. eauto. }
    assert (w_tables w !! "orders" = Some (orders_table [order_1; order_2])) as Ht
      by (by vm_compute).
    destruct (export_key_fields 5 "orders" w w' out _ Ht He) as (pk & rk & items & -> & _ & Hr).
    destruct (Hr "customer" "order" eq_refl) as (-> & -> & _); [discriminate..|].
    clear He Ht Hr. eexists _, _, _, _. repeat split; reflexivity.
Defined.

(** ** Writes *)

(** The effect of an accepted put-item request on the tables; [None] when
    the store refuses the item. *)
Definition store_put (tn : string) (item : Item) (ts : gmap string Table)
  : option (gmap string Table) :=
  t ← ts !! tn;
  k ← item_key t item;
  Some (<[tn := {| tbl_KeySchema := tbl_KeySchema t;
                   tbl_AttributeDefinitions := tbl_AttributeDefinitions t;
                   tbl_items := put_item t k item (tbl_items t) |}]> ts).

(** The items written one after the other, all of them accepted. *)
Fixpoint write_all (tn : string) (items : list Item) (ts : gmap string Table)
  : option (gmap string Table) :=
  match items with
  | [] => Some ts
  | item :: items => ts' ← store_put tn item ts; write_all tn items ts'
  end.

(** The put-item requests among some events: table, item and answer. *)
Definition puts_of (evs : list Event) : list (string * Item * option error) :=
  omap (λ ev, match ev with EvPutItem n it e => Some (n, it, e) | _ => None end) evs.

Lemma write_all_app tn l1 l2 ts :
  write_all tn (l1 ++ l2) ts = write_all tn l1 ts ≫= write_all tn l2.
Proof.
  revert ts. induction l1 as [|x l1 IH]; intros ts; simpl; [done|].
  destruct (store_put tn x ts); simpl; [apply IH | done].
Qed.

Lemma PutItem_inv tn item w w' r :
  PutItem tn item w = (w', r) →
  same_env w w' ∧ w_faults w' = tail (w_faults w) ∧
  w_log w' = w_log w ++ [EvPutItem tn item (result_err r)] ∧
  match r with
  | Ok _ => store_put tn item (w_tables w) = Some (w_tables w')
  | Err _ => w_tables w' = w_tables w
  | OutOfFuel => False
  end.
Proof.
  intros (He & Hf & Hl & Hr)%request_inv. do 3 (split; [done|]).
  destruct r as [[]|e|]; [|by destruct Hr|done]. destruct Hr as [Hr _].
  unfold store_put. destruct (w_tables w !! tn) as [t|]; [|done]. simpl.
  destruct (item_key t item); [|done]. by inversion Hr.
Qed.

Section import_properties.
Context `{Float64}.

Definition put_ok (tn : string) (it : gmap string any) : Event :=
  EvPutItem tn (MarshalMap it) None.

(** What the loop over the items does: it writes them all, or it writes
    those before some position [K] and stops at the request for the item
    at [K], which failed. *)
Inductive puts_outcome (tn : string) (items : list (gmap string any)) (w w' : World)
  : Result unit → Prop :=
| puts_all :
    w_log w' = w_log w ++ (put_ok tn <$> items) →
    write_all tn (MarshalMap <$> items) (w_tables w) = Some (w_tables w') →
    puts_outcome tn items w w' (Ok tt)
| puts_stopped K it e :
    items !! K = Some it →
    w_log w' = w_log w ++ (put_ok tn <$> take K items) ++ [EvPutItem tn (MarshalMap it) (Some e)] →
    write_all tn (MarshalMap <$> take K items) (w_tables w) = Some (w_tables w') →
    puts_outcome tn items w w' (Err e).

Lemma put_items_outcome tn items w w' r :
  put_items tn items w = (w', r) →
  same_env w w' ∧ puts_outcome tn items w w' r.
Proof.
  revert w. induction items as [|it items IH]; intros w; simpl.
  - intros Hr. inversion Hr; subst. split; [apply same_env_refl|].
    constructor; simpl; [by rewrite app_nil_r | done].
  - intros [(w1 & [] & Hp & Hk)|[(e & Hp & ->)|[Hp ->]]]%bind_inv;
      apply PutItem_inv in Hp as (He & _ & Hl & Hr); [| |done].
    + apply IH in Hk as [He' Ho]. split; [by eapply same_env_trans|].
      simpl in Hl. destruct Ho as [Hl' Hw|K it' e Hit Hl' Hw].
      * constructor; [by rewrite Hl', Hl, <-app_assoc | simpl; by rewrite Hr].
      * apply (puts_stopped _ _ _ _ (S K) it' e); [done| |simpl; by rewrite Hr].
        by rewrite Hl', Hl, <-app_assoc.
    + split; [done|]. by apply (puts_stopped _ _ _ _ 0 it e); simpl; [| |rewrite Hr].
Qed.

(** The world after the prompt has been shown. *)
Definition prompted (tn : string) (w : World) : World :=
  log_event (EvPrompt (confirm_title tn)) (set_prompts (tail (w_prompts w)) w).

(** The value of [confirm] after the prompt. *)
Definition confirmed (w : World) : bool :=
  match head (w_prompts w) with Some po => po_confirm po | None => false end.

Lemma importFromFile_parsed tn path w raw data :
  w_files w !! path = Some raw →
  json_Unmarshal raw = Some data →
  importFromFile tn path w =
    if confirmed w then put_items tn (Items data) (prompted tn w)
    else (prompted tn w, Ok tt).
Proof.
  intros Hf Hd. unfold importFromFile, mbind, Go_bind, os_ReadFile, form_Run, confirmed.
  rewrite Hf, Hd. simpl. by destruct (head (w_prompts w)) as [[[] ?]|].
Qed.

Lemma puts_of_put_ok tn (items : list (gmap string any)) :
  puts_of (put_ok tn <$> items) = (λ it, (tn, MarshalMap it, None)) <$> items.
Proof. induction items; simpl; [done|]. unfold puts_of in *. simpl. by f_equal. Qed.

Lemma puts_of_app evs1 evs2 : puts_of (evs1 ++ evs2) = puts_of evs1 ++ puts_of evs2.
Proof. apply omap_app. Qed.

(** The put-item requests of a confirmed import and what they did to the
    tables. *)
Lemma import_confirmed_outcome tn path w w' r raw data :
  w_files w !! path = Some raw →
  json_Unmarshal raw = Some data →
  confirmed w = true →
  importFromFile tn path w = (w', r) →
  (r = Ok tt ∧
   puts_of (new_events w w') = (λ it, (tn, MarshalMap it, None)) <$> Items data ∧
   write_all tn (MarshalMap <$> Items data) (w_tables w) = Some (w_tables w')) ∨
  (∃ K it e, r = Err e ∧ Items data !! K = Some it ∧
     puts_of (new_events w w') =
       ((λ it, (tn, MarshalMap it, None)) <$> take K (Items data)) ++ [(tn, MarshalMap it, Some e)] ∧
     write_all tn (MarshalMap <$> take K (Items data)) (w_tables w) = Some (w_tables w')).
Proof.
  intros Hf Hd Hc. rewrite (importFromFile_parsed _ _ _ _ _ Hf Hd), Hc.
  intros [_ Ho]%put_items_outcome.
  destruct Ho as [Hl Hw|K it e Hit Hl Hw]; [left|right; exists K, it, e];
    simpl in Hl; rewrite <-app_assoc in Hl; rewrite (new_events_app _ _ _ Hl);
    repeat split; try done.
  - change (?x :: ?l) with ([x] ++ l). by rewrite puts_of_app, puts_of_put_ok.
  - change (?x :: ?l) with ([x] ++ l). by rewrite !puts_of_app, puts_of_put_ok.
Qed.
End import_properties.

(** ** Documents to import into [foo] *)

Definition json_a : JSON := JObject [("id", JString "a"); ("v", JNumber "1")].
Definition json_b : JSON := JObject [("id", JString "b"); ("v", JNumber "2")].
(** An item without the key attribute: the store refuses it. *)
Definition json_keyless : JSON := JObject [("v", JNumber "3")].

Definition foo_document (items : list JSON) : string :=
  render (document "foo" "id" EmptyString items).

Definition aborted_after_yes : PromptOutcome :=
  {| po_confirm := true; po_err := Some (ErrPrompt "user aborted") |}.

Section import_claims.
Context `{Float64}.

(** X12 (C2, as the code has it): for every document and every table, when the
    variable [confirm] is false after the prompt (the user answered no,
    or the prompt failed and nobody answered) import sends no put-item
    request, leaves the tables as they were and returns nil. *)
Theorem import_not_confirmed tableName path w raw data :
  w_files w !! path = Some raw →
  json_Unmarshal raw = Some data →
  confirmed w = false →
  ∃ w', importFromFile tableName path w = (w', Ok tt) ∧
        w_tables w' = w_tables w ∧
        new_events w w' = [EvPrompt (confirm_title tableName)] ∧
        puts_of (new_events w w') = [].
Proof.
  intros Hf Hd Hc. rewrite (importFromFile_parsed _ _ _ _ _ Hf Hd), Hc.
  eexists. split; [done|]. split; [done|].
  assert (new_events w (prompted tableName w) = [EvPrompt (confirm_title tableName)]) as ->.
  { by apply new_events_app. }
  done.
Qed.

(** X14 (C3): in a confirmed import, when the put-item request for the item at
    position [K] fails, the requests before it were those for the items
    before [K], in order and all accepted, it is the last request, and
    the tables are what these [K] writes made of them: nothing is undone
    and no later item is written. *)
Theorem import_write_failure tableName path w w' r raw data K n item e :
  w_files w !! path = Some raw →
  json_Unmarshal raw = Some data →
  confirmed w = true →
  importFromFile tableName path w = (w', r) →
  puts_of (new_events w w') !! K = Some (n, item, Some e) →
  ∃ it, Items data !! K = Some it ∧ n = tableName ∧ item = MarshalMap it ∧
    puts_of (new_events w w') =
      ((λ it, (tableName, MarshalMap it, None)) <$> take K (Items data))
        ++ [(tableName, item, Some e)] ∧
    write_all tableName (MarshalMap <$> take K (Items data)) (w_tables w) = Some (w_tables w').
Proof.
  intros Hf Hd Hc Hi HK.
  destruct (import_confirmed_outcome _ _ _ _ _ _ _ Hf Hd Hc Hi)
    as [(_ & Hp & _)|(K' & it & e' & _ & Hit & Hp & Hw)]; rewrite Hp in HK.
  - rewrite list_lookup_fmap in HK. by destruct (Items data !! K).
  - assert (length (take K' (Items data)) = K') as Hlen.
    { rewrite length_take. apply lookup_lt_Some in Hit. lia. }
    destruct (decide (K < K')) as [Hlt|Hge].
    { rewrite lookup_app_l in HK by (rewrite length_fmap; lia).
      rewrite list_lookup_fmap in HK. by destruct (take K' (Items data) !! K). }
    rewrite lookup_app_r in HK by (rewrite length_fmap; lia).
    rewrite length_fmap, Hlen in HK.
    destruct (K - K') as [|d] eqn:Hd'; [|done]. assert (K = K') as -> by lia.
    simpl in HK. injection HK as <- <- <-. exists it. by rewrite Hp.
Qed.

(** X15 (C4, as the code has it): in a confirmed import, when a put-item
    request fails, import returns the error of that request as it is;
    nothing is added to it. *)
Theorem import_returns_write_error tableName path w w' r raw data K n item e :
  w_files w !! path = Some raw →
  json_Unmarshal raw = Some data →
  confirmed w = true →
  importFromFile tableName path w = (w', r) →
  puts_of (new_events w w') !! K = Some (n, item, Some e) →
  r = Err e.
Proof.
  intros Hf Hd Hc Hi HK.
  destruct (import_confirmed_outcome _ _ _ _ _ _ _ Hf Hd Hc Hi)
    as [(_ & Hp & _)|(K' & it & e' & -> & Hit & Hp & Hw)]; rewrite Hp in HK.
  - rewrite list_lookup_fmap in HK. by destruct (Items data !! K).
  - assert (length (take K' (Items data)) = K') as Hlen.
    { rewrite length_take. apply lookup_lt_Some in Hit. lia. }
    destruct (decide (K < K')) as [Hlt|Hge].
    { rewrite lookup_app_l in HK by (rewrite length_fmap; lia).
      rewrite list_lookup_fmap in HK. by destruct (take K' (Items data) !! K). }
    rewrite lookup_app_r in HK by (rewrite length_fmap; lia).
    rewrite length_fmap, Hlen in HK.
    destruct (K - K') as [|d] eqn:Hd'; [|done]. simpl in HK. by injection HK as <- <- <-.
Qed.
End import_claims.

(** Whether a text parses, as a boolean. *)
Definition parses {A} (o : option A) : bool :=
  match o with Some _ => true | None => false end.

Lemma parses_Some {A} (o : option A) : parses o = true → ∃ a, o = Some a.
Proof. destruct o; [eauto|done]. Qed.

(** The user answers no: nothing is written. *)
Lemma import_not_confirmed_witness :
  let w := foo_world [item_a] [] {[ "dump.json" := foo_document [json_b] ]} [no] in
  ∃ w', importFromFile "foo" "dump.json" w = (w', Ok tt) ∧
        w_tables w' = w_tables w ∧
        new_events w w' = [EvPrompt (confirm_title "foo")] ∧
        puts_of (new_events w w') = [].
Proof.
  intros w.
  destruct (parses_Some (json_Unmarshal (foo_document [json_b]))) as [data Hd];
    [by vm_compute|].
  apply (import_not_confirmed "foo" "dump.json" w (foo_document [json_b]) data);
    [by vm_compute | exact Hd | by vm_compute].
Defined.

(** C2 as stated fails: the prompt ends with an error (the user had moved
    to yes and then aborted the form); [Run]'s error is dropped, [confirm]
    is true, and the item of the document is written. *)
Lemma import_prompt_error_counterexample :
  let w := foo_world [] [] {[ "dump.json" := foo_document [json_a] ]} [aborted_after_yes] in
  (∃ po, head (w_prompts w) = Some po ∧ po_err po ≠ None) ∧
  ∃ w', importFromFile "foo" "dump.json" w = (w', Ok tt) ∧
        puts_of (new_events w w') = [("foo", item_a, None)] ∧
        w_tables w' !! "foo" = Some (foo_table [item_a]) ∧
        w_tables w !! "foo" = Some (foo_table []).
Proof.
  intros w. split; [by eexists|].
  eexists. split; [by vm_compute|]. by vm_compute.
Defined.

(** The second of three items has no key: the first is written, the third
    is not. *)
Lemma import_write_failure_witness :
  let w := foo_world [] [] {[ "dump.json" := foo_document [json_a; json_keyless; json_b] ]} [yes] in
  let w' := (importFromFile "foo" "dump.json" w).1 in
  puts_of (new_events w w') =
    [("foo", item_a, None); ("foo", {[ "v" := MemberN "3" ]}, Some ValidationException)] ∧
  w_tables w' !! "foo" = Some (foo_table [item_a]).
Proof.
  intros w.
  destruct (parses_Some (json_Unmarshal (foo_document [json_a; json_keyless; json_b])))
    as [data Hd]; [by vm_compute|].
  destruct (importFromFile "foo" "dump.json" w) as [w' r] eqn:Hi. simpl.
  vm_compute in Hi. injection Hi as <- <-.
  destruct (import_write_failure "foo" "dump.json" w _ _ _ data 1 "foo"
              {[ "v" := MemberN "3" ]} ValidationException
              ltac:(by vm_compute) Hd ltac:(by vm_compute) ltac:(by vm_compute)
              ltac:(by vm_compute)) as (it & _).
  clear Hd. split; by vm_compute.
Defined.

Lemma import_returns_write_error_witness :
  let w := foo_world [] [] {[ "dump.json" := foo_document [json_a; json_keyless; json_b] ]} [yes] in
  (importFromFile "foo" "dump.json" w).2 = Err ValidationException.
Proof.
  intros w.
  destruct (parses_Some (json_Unmarshal (foo_document [json_a; json_keyless; json_b])))
    as [data Hd]; [by vm_compute|].
  destruct (importFromFile "foo" "dump.json" w) as [w' r] eqn:Hi. simpl.
  apply (import_returns_write_error "foo" "dump.json" w w' r
           (foo_document [json_a; json_keyless; json_b]) data 1 "foo"
           {[ "v" := MemberN "3" ]} ValidationException);
    [by vm_compute | exact Hd | by vm_compute | exact Hi |].
  clear Hd. vm_compute in Hi. injection Hi as <- <-. by vm_compute.
Defined.

(** C4 as stated fails: no function of the returned error gives the
    position of the item whose write failed.  The keyless item comes
    first in one document and second in the other; import returns the
    same error for both. *)
Lemma import_error_position_counterexample :
  ¬ ∃ position : error → nat,
      ∀ path w w' e K n item,
        confirmed w = true →
        importFromFile "foo" path w = (w', Err e) →
        puts_of (new_events w w') !! K = Some (n, item, Some e) →
        position e = K.
Proof.
  intros [position Hpos].
  set (files := ({[ "first.json" := foo_document [json_keyless; json_a];
                    "second.json" := foo_document [json_a; json_keyless] ]} : gmap string string)).
  set (w := foo_world [] [] files [yes]).
  destruct (importFromFile "foo" "first.json" w) as [w1 r1] eqn:H1.
  destruct (importFromFile "foo" "second.json" w) as [w2 r2] eqn:H2.
  assert (r1 = Err ValidationException) as ->.
  { vm_compute in H1. by injection H1 as _ <-. }
  assert (r2 = Err ValidationException) as ->.
  { vm_compute in H2. by injection H2 as _ <-. }
  assert (position ValidationException = 0) as P0.
  { eapply (Hpos _ w w1 _ 0); [by vm_compute | exact H1 |].
    vm_compute in H1. injection H1 as <-. by vm_compute. }
  assert (position ValidationException = 1) as P1.
  { eapply (Hpos _ w w2 _ 1); [by vm_compute | exact H2 |].
    vm_compute in H2. injection H2 as <-. by vm_compute. }
  congruence.
Qed.

(** ** The document's fields on import *)

Section import_fields.
Context `{Float64}.

(** Whether a member of the top-level object is stored into field [f]
    (given in upper case). *)
Definition names_field (f : string) (kv : string * JSON) : bool :=
  String.eqb (fold_name kv.1) f.

Definition read_members (od : option exportFormat) (kvs : list (string * JSON))
  : option exportFormat :=
  foldl (λ od kv, d ← od; set_field d kv) od kvs.

Lemma read_members_None kvs : read_members None kvs = None.
Proof. by induction kvs. Qed.

(** A member that does not name a field leaves the field as it was. *)
Lemma set_field_keeps d kv d' :
  set_field d kv = Some d' →
  (names_field "TABLENAME" kv = false → TableName d' = TableName d) ∧
  (names_field "PRIMARYKEY" kv = false → PrimaryKey d' = PrimaryKey d) ∧
  (names_field "RANGEKEY" kv = false → RangeKey d' = RangeKey d) ∧
  (names_field "ITEMS" kv = false → Items d' = Items d).
Proof.
  unfold set_field, names_field.
  destruct (String.eqb (fold_name kv.1) "TABLENAME") eqn:E1.
  { apply String.eqb_eq in E1. rewrite E1. simpl.
    destruct (string_field kv.2 (TableName d)); simpl; [|done]. intros [= <-]. by repeat split. }
  destruct (String.eqb (fold_name kv.1) "PRIMARYKEY") eqn:E2.
  { apply String.eqb_eq in E2. rewrite E2. simpl.
    destruct (string_field kv.2 (PrimaryKey d)); simpl; [|done]. intros [= <-]. by repeat split. }
  destruct (String.eqb (fold_name kv.1) "RANGEKEY") eqn:E3.
  { apply String.eqb_eq in E3. rewrite E3. simpl.
    destruct (string_field kv.2 (RangeKey d)); simpl; [|done]. intros [= <-]. by repeat split. }
  destruct (String.eqb (fold_name kv.1) "ITEMS") eqn:E4.
  { destruct kv.2; try done.
    - intros [= <-]. by repeat split.
    - destruct (to_items (Items d) l); simpl; [|done]. intros [= <-]. by repeat split. }
  intros [= <-]. by repeat split.
Qed.

Lemma read_members_keeps kvs d d' :
  read_members (Some d) kvs = Some d' →
  (Forall (λ kv, names_field "TABLENAME" kv = false) kvs → TableName d' = TableName d) ∧
  (Forall (λ kv, names_field "PRIMARYKEY" kv = false) kvs → PrimaryKey d' = PrimaryKey d) ∧
  (Forall (λ kv, names_field "RANGEKEY" kv = false) kvs → RangeKey d' = RangeKey d) ∧
  (Forall (λ kv, names_field "ITEMS" kv = false) kvs → Items d' = Items d).
Proof.
  revert d. induction kvs as [|kv kvs IH]; intros d; simpl.
  - intros [= <-]. by repeat split.
  - destruct (set_field d kv) as [d1|] eqn:Hs; simpl; [|by rewrite read_members_None].
    intros (I1 & I2 & I3 & I4)%IH. apply set_field_keeps in Hs as (S1 & S2 & S3 & S4).
    repeat split; intros [Hkv Hrest]%Forall_cons;
      [rewrite I1, S1|rewrite I2, S2|rewrite I3, S3|rewrite I4, S4]; done.
Qed.

Lemma request_set_files {A} ev run fs w :
  @request A ev run (set_files fs w) =
  let '(w', r) := request ev run w in (set_files fs w', r).
Proof.
  unfold request. simpl.
  destruct (head (w_faults w)) as [[e|]|]; [done|..];
    by destruct (run (w_tables w)) as [e|[ts a]].
Qed.

Lemma put_items_set_files tn items fs w :
  put_items tn items (set_files fs w) =
  let '(w', r) := put_items tn items w in (set_files fs w', r).
Proof.
  revert w. induction items as [|it items IH]; intros w; simpl; [done|].
  unfold mbind, Go_bind, PutItem. rewrite request_set_files.
  destruct (request _ _ w) as [w1 [[]|e|]]; simpl; [apply IH|done..].
Qed.

(** X16 (C9): import reads only [Items] of the document.  Every put-item
    request goes to the table given by [--table]; a document with the
    same items, whatever its other fields, makes the import do the same;
    and a field the document's object does not name is empty after
    parsing, without an error. *)
Theorem import_ignores_document_fields tableName path w raw data :
  w_files w !! path = Some raw →
  json_Unmarshal raw = Some data →
  let run := importFromFile tableName path in
  Forall (λ p, p.1.1 = tableName) (puts_of (new_events w (run w).1)) ∧
  (∀ raw' data',
     json_Unmarshal raw' = Some data' → Items data' = Items data →
     let w2 := set_files (<[path := raw']> (w_files w)) w in
     (run w2).2 = (run w).2 ∧
     w_tables (run w2).1 = w_tables (run w).1 ∧
     new_events w2 (run w2).1 = new_events w (run w).1) ∧
  (∀ kvs, json_parse raw = Some (JObject kvs) →
     (Forall (λ kv, names_field "TABLENAME" kv = false) kvs → TableName data = EmptyString) ∧
     (Forall (λ kv, names_field "PRIMARYKEY" kv = false) kvs → PrimaryKey data = EmptyString) ∧
     (Forall (λ kv, names_field "RANGEKEY" kv = false) kvs → RangeKey data = EmptyString) ∧
     (Forall (λ kv, names_field "ITEMS" kv = false) kvs → Items data = [])).
Proof.
  intros Hf Hd run. split; [|split].
  - unfold run. rewrite (importFromFile_parsed _ _ _ _ _ Hf Hd).
    destruct (confirmed w).
    + destruct (put_items tableName (Items data) (prompted tableName w)) as [w' r] eqn:Hp.
      apply put_items_outcome in Hp as [_ Ho]. simpl.
      destruct Ho as [Hl _|K it e _ Hl _]; simpl in Hl; rewrite <-app_assoc in Hl;
        rewrite (new_events_app _ _ _ Hl); change (?x :: ?l) with ([x] ++ l);
        rewrite !puts_of_app, puts_of_put_ok; simpl.
      * apply Forall_fmap, Forall_true. done.
      * apply Forall_app. split; [apply Forall_fmap, Forall_true; done|].
        by repeat constructor.
    + simpl. assert (new_events w (prompted tableName w) = [EvPrompt (confirm_title tableName)]) as ->
        by (by apply new_events_app). constructor.
  - intros raw' data' Hd' Hitems w2. unfold run.
    rewrite (importFromFile_parsed _ _ _ _ _ Hf Hd).
    rewrite (importFromFile_parsed tableName path w2 raw' data') by (done || apply lookup_insert_eq).
    rewrite Hitems. change (confirmed w2) with (confirmed w).
    destruct (confirmed w); [|done].
    change (prompted tableName w2)
      with (set_files (<[path := raw']> (w_files w)) (prompted tableName w)).
    rewrite put_items_set_files.
    by destruct (put_items tableName (Items data) (prompted tableName w)) as [w' r].
  - intros kvs Hp. unfold json_Unmarshal in Hd. rewrite Hp in Hd. simpl in Hd.
    apply read_members_keeps in Hd. simpl in Hd. exact Hd.
Qed.
End import_fields.

(** A document that names no field but [Items], imported into [foo]. *)
Lemma import_ignores_document_fields_witness :
  let raw := render (JObject [("Items", JArray [json_a])]) in
  let w := foo_world [] [] {[ "dump.json" := raw ]} [yes] in
  (∃ data, json_Unmarshal raw = Some data ∧
           TableName data = EmptyString ∧ PrimaryKey data = EmptyString ∧
           RangeKey data = EmptyString) ∧
  puts_of (new_events w (importFromFile "foo" "dump.json" w).1) = [("foo", item_a, None)].
Proof.
  intros raw w.
  destruct (parses_Some (json_Unmarshal raw)) as [data Hd]; [by vm_compute|].
  assert (w_files w !! "dump.json" = Some raw) as Hf by (by vm_compute).
  destruct (import_ignores_document_fields "foo" "dump.json" w raw data Hf Hd)
    as (_ & _ & Hfields).
  destruct (Hfields [("Items", JArray [json_a])]) as (H1 & H2 & H3 & _); [by vm_compute|].
  split; [|clear; by vm_compute].
  exists data. split; [exact Hd|].
  repeat split; [apply H1|apply H2|apply H3]; by repeat constructor.
Defined.

(** ** Reading back what [render] wrote *)

Lemma sapp_nil_l s : EmptyString +:+ s = s.
Proof. done. Qed.

Lemma sapp_cons c s t : String c s +:+ t = String c (s +:+ t).
Proof. done. Qed.

Lemma sapp_nil_r s : s +:+ EmptyString = s.
Proof. induction s as [|c s IH]; [done|]. by rewrite sapp_cons, IH. Qed.

Lemma sapp_assoc s t u : (s +:+ t) +:+ u = s +:+ (t +:+ u).
Proof. induction s as [|c s IH]; [done|]. by rewrite !sapp_cons, IH. Qed.

Lemma length_sapp s t : String.length (s +:+ t) = String.length s + String.length t.
Proof. induction s as [|c s IH]; [done|]. rewrite sapp_cons. simpl. by rewrite IH. Qed.

(** What may follow a value: nothing, a comma or a closing bracket. *)
Definition ends_value (rest : string) : bool :=
  match rest with
  | EmptyString => true
  | String c _ => (code c =? 44)%N || (code c =? 93)%N || (code c =? 125)%N
  end.

Fixpoint all_number_chars (s : string) : bool :=
  match s with
  | EmptyString => true
  | String c r => is_number_char c && all_number_chars r
  end.

Lemma is_digit_number_char c : is_digit c = true → is_number_char c = true.
Proof. unfold is_number_char. by intros ->. Qed.

Lemma skip_digits_number_chars s :
  all_number_chars (skip_digits s) = true → all_number_chars s = true.
Proof.
  induction s as [|c s IH]; simpl; [done|].
  destruct (is_digit c) eqn:Hd; [|done].
  intros ?%IH. by rewrite is_digit_number_char.
Qed.

Lemma number_exp_chars s : number_exp s = true → all_number_chars s = true.
Proof.
  destruct s as [|c r]; simpl; [done|].
  destruct ((code c =? 101)%N || (code c =? 69)%N) eqn:He; [|done].
  assert (is_number_char c = true) as ->.
  { unfold is_number_char. apply orb_true_iff in He as [->| ->];
      by rewrite ?orb_true_r. }
  simpl. destruct r as [|d r']; [done|].
  destruct ((code d =? 43)%N || (code d =? 45)%N) eqn:Hs.
  - assert (is_number_char d = true) as Hd.
    { unfold is_number_char. apply orb_true_iff in Hs as [->| ->];
        by rewrite ?orb_true_r. }
    destruct r' as [|d' r'']; [done|].
    intros [Hd' Hr]%andb_true_iff. apply bool_decide_eq_true in Hr.
    simpl. rewrite Hd, (is_digit_number_char _ Hd'). simpl.
    apply skip_digits_number_chars. by rewrite Hr.
  - intros [Hd' Hr]%andb_true_iff. apply bool_decide_eq_true in Hr.
    simpl. rewrite (is_digit_number_char _ Hd'). simpl.
    apply skip_digits_number_chars. by rewrite Hr.
Qed.

Lemma number_frac_chars s : number_frac s = true → all_number_chars s = true.
Proof.
  destruct s as [|c [|d r]]; [done|apply number_exp_chars|].
  unfold number_frac. destruct (code c =? 46)%N eqn:Hc; [|apply number_exp_chars].
  intros [Hd Hr]%andb_true_iff. simpl.
  assert (is_number_char c = true) as ->.
  { unfold is_number_char. by rewrite Hc, ?orb_true_r. }
  rewrite (is_digit_number_char _ Hd). simpl.
  by apply skip_digits_number_chars, number_exp_chars.
Qed.

Lemma number_int_chars s : number_int s = true → all_number_chars s = true.
Proof.
  destruct s as [|c r]; simpl; [done|].
  destruct (code c =? 48)%N eqn:Hc.
  - intros ?%number_frac_chars.
    assert (is_digit c = true) as Hd.
    { unfold is_digit. apply N.eqb_eq in Hc. by rewrite Hc. }
    by rewrite (is_digit_number_char _ Hd).
  - intros [Hd Hr]%andb_true_iff. rewrite (is_digit_number_char _ Hd). simpl.
    by apply skip_digits_number_chars, number_frac_chars.
Qed.

Lemma is_json_number_chars s : is_json_number s = true → all_number_chars s = true.
Proof.
  destruct s as [|c r]; [done|]. unfold is_json_number.
  destruct (code c =? 45)%N eqn:Hc; [|apply number_int_chars].
  intros ?%number_int_chars. simpl.
  assert (is_number_char c = true) as ->; [|done].
  unfold is_number_char. by rewrite Hc, ?orb_true_r.
Qed.

(** A number starts with a minus sign or a digit. *)
Lemma is_json_number_start s :
  is_json_number s = true →
  ∃ c r, s = String c r ∧ (code c =? 45)%N || is_digit c = true.
Proof.
  destruct s as [|c r]; [done|]. unfold is_json_number. intros Hn. exists c, r.
  split; [done|]. destruct (code c =? 45)%N; [done|]. simpl in *.
  destruct (code c =? 48)%N eqn:Hc.
  - unfold is_digit. apply N.eqb_eq in Hc. by rewrite Hc.
  - by apply andb_true_iff in Hn as [-> _].
Qed.

Lemma ends_value_not_number rest :
  ends_value rest = true →
  match rest with String c _ => is_number_char c = false | EmptyString => True end.
Proof.
  destruct rest as [|c r]; [done|]. simpl. unfold is_number_char, is_digit.
  intros [[->%N.eqb_eq| ->%N.eqb_eq]%orb_true_iff| ->%N.eqb_eq]%orb_true_iff; done.
Qed.

Lemma span_number_app lit rest :
  all_number_chars lit = true →
  ends_value rest = true →
  span_number (lit +:+ rest) = (lit, rest).
Proof.
  intros Hl Hr%ends_value_not_number. induction lit as [|c lit IH].
  - rewrite sapp_nil_l. destruct rest as [|c r]; [done|]. simpl. by rewrite Hr.
  - simpl in Hl. apply andb_true_iff in Hl as [Hc Hl].
    rewrite sapp_cons. simpl. by rewrite Hc, (IH Hl).
Qed.

Lemma parse_number_app lit rest :
  is_json_number lit = true →
  ends_value rest = true →
  parse_number (lit +:+ rest) = Some (JNumber lit, rest).
Proof.
  intros Hn Hr. unfold parse_number.
  rewrite span_number_app by (done || by apply is_json_number_chars). by rewrite Hn.
Qed.

(** One escaped character is read back as the character. *)
Lemma parse_string_escape_char c tail :
  parse_string (escape_char c +:+ tail) =
  prepend (String c EmptyString) <$> parse_string tail.
Proof.
  destruct c as [[] [] [] [] [] [] [] []]; reflexivity.
Qed.

Lemma prepend_cons c (x : option (string * string)) s rest :
  x = Some (s, rest) →
  prepend (String c EmptyString) <$> x = Some (String c s, rest).
Proof. by intros ->. Qed.

Lemma parse_string_escape s rest :
  parse_string (escape s +:+ String dquote rest) = Some (s, rest).
Proof.
  induction s as [|c s IH]; [done|]. simpl.
  rewrite sapp_assoc, parse_string_escape_char. by apply prepend_cons.
Qed.

Lemma parse_string_quote s rest :
  ∃ tail, quote s +:+ rest = String dquote tail ∧ parse_string tail = Some (s, rest).
Proof.
  eexists. split; [done|]. unfold quote.
  rewrite sapp_assoc, sapp_cons, sapp_nil_l. apply parse_string_escape.
Qed.

(** A tree whose numbers are written as JSON writes numbers. *)
Fixpoint wf_json (j : JSON) : bool :=
  match j with
  | JNumber lit => is_json_number lit
  | JArray l => forallb wf_json l
  | JObject kvs => forallb (λ kv, wf_json kv.2) kvs
  | _ => true
  end.

(** The fuel that reading a tree takes: one unit for each value and one
    more for each element or member. *)
Fixpoint json_size (j : JSON) : nat :=
  match j with
  | JArray l => S (foldr (λ x n, S (json_size x) + n) 0 l)
  | JObject kvs => S (foldr (λ kv n, S (json_size kv.2) + n) 0 kvs)
  | _ => 1
  end.

Lemma JSON_nested_ind (P : JSON → Prop) :
  P JNull → (∀ b, P (JBool b)) → (∀ lit, P (JNumber lit)) → (∀ s, P (JString s)) →
  (∀ l, Forall P l → P (JArray l)) →
  (∀ kvs, Forall (λ kv, P kv.2) kvs → P (JObject kvs)) →
  ∀ j, P j.
Proof.
  intros Hn Hb Hnum Hs Ha Ho. fix IH 1. intros [|b|lit|s|l|kvs].
  - exact Hn.
  - apply Hb.
  - apply Hnum.
  - apply Hs.
  - apply Ha. induction l as [|x l IHl]; constructor; [apply IH | exact IHl].
  - apply Ho. induction kvs as [|[k v] kvs IHk]; constructor; [apply IH | exact IHk].
Qed.

Lemma number_start_char c :
  (code c =? 45)%N || is_digit c = true →
  is_space c = false ∧ (code c =? 93)%N = false ∧ (code c =? 125)%N = false.
Proof.
  destruct c as [[] [] [] [] [] [] [] []]; intros Hc; vm_compute in Hc;
    try discriminate Hc; by vm_compute.
Qed.

Lemma parse_value_number f c s :
  (code c =? 45)%N || is_digit c = true →
  parse_value (S f) (String c s) = parse_number (String c s).
Proof.
  destruct c as [[] [] [] [] [] [] [] []]; intros Hc; vm_compute in Hc;
    try discriminate Hc; reflexivity.
Qed.

Lemma parse_value_string f s :
  parse_value (S f) (String dquote s) =
  '(str, r') ← parse_string s; Some (JString str, r').
Proof. reflexivity. Qed.

Lemma parse_value_array f s :
  parse_value (S f) (String "[" s) =
  match skip_ws s with
  | String c' r' =>
      if (code c' =? 93)%N then Some (JArray [], r')
      else '(l, r'') ← parse_elements f (skip_ws s); Some (JArray l, r'')
  | EmptyString => None
  end.
Proof. reflexivity. Qed.

Lemma parse_value_object f s :
  parse_value (S f) (String "{" s) =
  match skip_ws s with
  | String c' r' =>
      if (code c' =? 125)%N then Some (JObject [], r')
      else '(kvs, r'') ← parse_members f (skip_ws s); Some (JObject kvs, r'')
  | EmptyString => None
  end.
Proof. reflexivity. Qed.

Lemma parse_elements_S f s :
  parse_elements (S f) s =
  '(v, r) ← parse_value f s;
  match skip_ws r with
  | String c r' =>
      if (code c =? 44)%N then
        '(l, r'') ← parse_elements f r'; Some (v :: l, r'')
      else if (code c =? 93)%N then Some ([v], r')
      else None
  | EmptyString => None
  end.
Proof. reflexivity. Qed.

Lemma parse_members_S f s :
  parse_members (S f) s =
  match skip_ws s with
  | String q r =>
      if (code q =? 34)%N then
        '(k, r1) ← parse_string r;
        match skip_ws r1 with
        | String c r2 =>
            if (code c =? 58)%N then
              '(v, r3) ← parse_value f r2;
              match skip_ws r3 with
              | String c' r4 =>
                  if (code c' =? 44)%N then
                    '(kvs, r5) ← parse_members f r4; Some ((k, v) :: kvs, r5)
                  else if (code c' =? 125)%N then Some ([(k, v)], r4)
                  else None
              | EmptyString => None
              end
            else None
        | EmptyString => None
        end
      else None
  | EmptyString => None
  end.
Proof. reflexivity. Qed.

(** What [render] writes starts with a character that is neither white
    space nor a closing bracket. *)
Lemma render_starts j rest :
  wf_json j = true →
  ∃ c r, render j +:+ rest = String c r ∧
         is_space c = false ∧ (code c =? 93)%N = false ∧ (code c =? 125)%N = false.
Proof.
  destruct j as [|[]|lit|s|l|kvs]; simpl; intros Hwf; try by eexists _, _.
  apply is_json_number_start in Hwf as (c & r & -> & Hc).
  exists c, (r +:+ rest). split; [done|]. by apply number_start_char.
Qed.

Definition reads_back (j : JSON) : Prop :=
  ∀ fuel rest, (json_size j ≤ fuel)%nat → ends_value rest = true →
    parse_value fuel (render j +:+ rest) = Some (j, rest).

Definition elems_size (l : list JSON) : nat := foldr (λ x n, S (json_size x) + n) 0 l.
Definition members_size (kvs : list (string * JSON)) : nat :=
  foldr (λ kv n, S (json_size kv.2) + n) 0 kvs.

Lemma parse_elements_render l x fuel rest :
  Forall reads_back (x :: l) →
  (elems_size (x :: l) ≤ fuel)%nat →
  parse_elements fuel (String.concat "," (map render (x :: l)) +:+ String "]" rest)
  = Some (x :: l, rest).
Proof.
  revert x fuel. induction l as [|y l IH]; intros x fuel [Hx Hl]%Forall_cons Hfuel;
    (destruct fuel as [|f]; [simpl in Hfuel; lia|]); rewrite parse_elements_S.
  - simpl in *. rewrite Hx by (done || lia). by simpl.
  - change (String.concat "," (map render (x :: y :: l)))
      with (render x +:+ "," +:+ String.concat "," (map render (y :: l))).
    specialize (IH y f Hl ltac:(simpl in *; lia)).
    remember (String.concat "," (map render (y :: l))) as C eqn:HC.
    rewrite !sapp_assoc, sapp_cons, sapp_nil_l.
    simpl in Hfuel. rewrite Hx by (done || lia). simpl. by rewrite IH.
Qed.

Definition render_member (kv : string * JSON) : string :=
  quote kv.1 +:+ ":" +:+ render kv.2.

Lemma skip_ws_start c r : is_space c = false → skip_ws (String c r) = String c r.
Proof. simpl. by intros ->. Qed.

Lemma parse_members_key f k s :
  parse_members (S f) (quote k +:+ String ":" s) =
  '(v, r3) ← parse_value f s;
  match skip_ws r3 with
  | String c' r4 =>
      if (code c' =? 44)%N then
        '(kvs, r5) ← parse_members f r4; Some ((k, v) :: kvs, r5)
      else if (code c' =? 125)%N then Some ([(k, v)], r4)
      else None
  | EmptyString => None
  end.
Proof.
  rewrite parse_members_S.
  destruct (parse_string_quote k (String ":" s)) as (tail & -> & Hp).
  rewrite skip_ws_start by done. change (code dquote =? 34)%N with true. cbv iota.
  rewrite Hp. reflexivity.
Qed.

Lemma parse_members_render kvs kv fuel rest :
  Forall (λ kv, reads_back kv.2) (kv :: kvs) →
  (members_size (kv :: kvs) ≤ fuel)%nat →
  parse_members fuel (String.concat "," (map render_member (kv :: kvs)) +:+ String "}" rest)
  = Some (kv :: kvs, rest).
Proof.
  revert kv fuel. induction kvs as [|kv' kvs IH]; intros [k v] fuel [Hx Hl]%Forall_cons Hfuel;
    (destruct fuel as [|f]; [simpl in Hfuel; lia|]).
  - change (String.concat "," (map render_member [(k, v)])) with (quote k +:+ ":" +:+ render v).
    rewrite !sapp_assoc, sapp_cons, sapp_nil_l, parse_members_key.
    simpl in Hx, Hfuel. rewrite Hx by (done || lia). by simpl.
  - specialize (IH kv' f Hl ltac:(simpl in *; lia)).
    change (String.concat "," (map render_member ((k, v) :: kv' :: kvs)))
      with ((quote k +:+ ":" +:+ render v) +:+ "," +:+
            String.concat "," (map render_member (kv' :: kvs))).
    remember (String.concat "," (map render_member (kv' :: kvs))) as C eqn:HC.
    rewrite !sapp_assoc, sapp_cons, sapp_nil_l, parse_members_key.
    rewrite sapp_cons, sapp_nil_l.
    simpl in Hx, Hfuel. rewrite Hx by (done || lia). simpl. by rewrite IH.
Qed.

Lemma wf_json_reads_back j : wf_json j = true → reads_back j.
Proof.
  induction j as [|b|lit|s|l IH|kvs IH] using JSON_nested_ind; intros Hwf fuel rest Hfuel Hrest;
    (destruct fuel as [|f]; [simpl in Hfuel; lia|]).
  - reflexivity.
  - by destruct b.
  - simpl in Hwf. change (render (JNumber lit)) with lit.
    pose proof Hwf as (c & r & -> & Hc)%is_json_number_start.
    rewrite sapp_cons, parse_value_number by done.
    rewrite <-sapp_cons. by apply parse_number_app.
  - change (render (JString s)) with (quote s).
    destruct (parse_string_quote s rest) as (tail & -> & Hp).
    rewrite parse_value_string, Hp. done.
  - simpl in Hwf.
    change (render (JArray l)) with ("[" +:+ String.concat "," (map render l) +:+ "]").
    rewrite !sapp_assoc, (sapp_cons "[" EmptyString), sapp_nil_l, parse_value_array.
    change ("]" +:+ rest) with (String "]" rest).
    destruct l as [|x l]; [reflexivity|].
    assert (Forall reads_back (x :: l)) as Hall.
    { apply Forall_forall. intros y Hy. rewrite Forall_forall in IH. apply IH; [done|].
      rewrite forallb_forall in Hwf. apply Hwf. by apply list_elem_of_In. }
    assert (wf_json x = true) as Hx by (by apply andb_true_iff in Hwf as [-> _]).
    assert (∃ c r, String.concat "," (map render (x :: l)) +:+ String "]" rest = String c r ∧
                   is_space c = false ∧ (code c =? 93)%N = false) as (c & r & Heq & Hsp & Hc).
    { destruct l as [|y l].
      - destruct (render_starts x (String "]" rest) Hx) as (c & r & Hr & ? & ? & ?).
        exists c, r. by rewrite <-Hr.
      - change (String.concat "," (map render (x :: y :: l)))
          with (render x +:+ "," +:+ String.concat "," (map render (y :: l))).
        rewrite sapp_assoc.
        destruct (render_starts x (("," +:+ String.concat "," (map render (y :: l)))
                                     +:+ String "]" rest) Hx) as (c & r & -> & ? & ? & ?).
        eauto. }
    rewrite Heq, skip_ws_start, Hc by done. rewrite <-Heq.
    rewrite parse_elements_render; [done|done|]. simpl in Hfuel. unfold elems_size. simpl. lia.
  - simpl in Hwf.
    change (render (JObject kvs))
      with ("{" +:+ String.concat "," (map render_member kvs) +:+ "}").
    rewrite !sapp_assoc, (sapp_cons "{" EmptyString), sapp_nil_l, parse_value_object.
    change ("}" +:+ rest) with (String "}" rest).
    destruct kvs as [|kv kvs]; [reflexivity|].
    assert (Forall (λ kv, reads_back kv.2) (kv :: kvs)) as Hall.
    { apply Forall_forall. intros y Hy. rewrite Forall_forall in IH. apply IH; [done|].
      rewrite forallb_forall in Hwf. apply (Hwf y). by apply list_elem_of_In. }
    assert (∃ r, String.concat "," (map render_member (kv :: kvs)) +:+ String "}" rest
                 = String dquote r) as [r Heq].
    { destruct kvs as [|kv' kvs].
      - change (String.concat "," (map render_member [kv])) with (render_member kv).
        unfold render_member, quote. rewrite !sapp_cons. eauto.
      - change (String.concat "," (map render_member (kv :: kv' :: kvs)))
          with (render_member kv +:+ "," +:+ String.concat "," (map render_member (kv' :: kvs))).
        unfold render_member at 1. unfold quote. rewrite !sapp_cons. eauto. }
    rewrite Heq, skip_ws_start by done.
    change (code dquote =? 125)%N with false. cbv iota. rewrite <-Heq.
    rewrite parse_members_render; [done|done|]. simpl in Hfuel. unfold members_size. simpl. lia.
Qed.

Lemma is_json_number_nonempty lit : is_json_number lit = true → (1 ≤ String.length lit)%nat.
Proof. destruct lit; [done|]. simpl. lia. Qed.

Lemma length_quote s : (2 ≤ String.length (quote s))%nat.
Proof. unfold quote. simpl. rewrite length_sapp. simpl. lia. Qed.

Lemma length_concat_elems (f : JSON → string) (size : JSON → nat) l :
  Forall (λ x, (size x ≤ String.length (f x))%nat) l →
  (foldr (λ x n, S (size x) + n)%nat 0%nat l
   ≤ S (String.length (String.concat "," (map f l))))%nat.
Proof.
  induction l as [|x [|y l] IH]; intros Hall.
  - simpl. lia.
  - apply Forall_cons in Hall as [Hx _]. simpl. lia.
  - apply Forall_cons in Hall as [Hx Hl]. specialize (IH Hl).
    change (String.concat "," (map f (x :: y :: l)))
      with (f x +:+ "," +:+ String.concat "," (map f (y :: l))).
    rewrite !length_sapp. simpl in *. lia.
Qed.

Lemma length_concat_members (kvs : list (string * JSON)) :
  Forall (λ kv, (json_size kv.2 ≤ String.length (render kv.2))%nat) kvs →
  (members_size kvs ≤ S (String.length (String.concat "," (map render_member kvs))))%nat.
Proof.
  unfold members_size.
  induction kvs as [|x [|y l] IH]; intros Hall.
  - simpl. lia.
  - apply Forall_cons in Hall as [Hx _].
    change (String.concat "," (map render_member [x])) with (render_member x).
    unfold render_member. rewrite !length_sapp. pose proof (length_quote x.1). simpl. lia.
  - apply Forall_cons in Hall as [Hx Hl]. specialize (IH Hl).
    change (String.concat "," (map render_member (x :: y :: l)))
      with (render_member x +:+ "," +:+ String.concat "," (map render_member (y :: l))).
    unfold render_member at 1. rewrite !length_sapp. pose proof (length_quote x.1).
    simpl in *. lia.
Qed.

Lemma json_size_length j :
  wf_json j = true → (json_size j ≤ String.length (render j))%nat.
Proof.
  induction j as [|b|lit|s|l IH|kvs IH] using JSON_nested_ind; intros Hwf.
  - simpl. lia.
  - destruct b; simpl; lia.
  - simpl in *. by apply is_json_number_nonempty.
  - change (render (JString s)) with (quote s). pose proof (length_quote s). simpl. lia.
  - change (render (JArray l)) with ("[" +:+ String.concat "," (map render l) +:+ "]").
    rewrite !length_sapp. simpl in Hwf.
    assert (Forall (λ x, (json_size x ≤ String.length (render x))%nat) l) as Hall.
    { apply Forall_forall. intros y Hy. rewrite Forall_forall in IH. apply IH; [done|].
      rewrite forallb_forall in Hwf. apply Hwf. by apply list_elem_of_In. }
    pose proof (length_concat_elems render json_size l Hall). simpl in *. lia.
  - change (render (JObject kvs))
      with ("{" +:+ String.concat "," (map render_member kvs) +:+ "}").
    rewrite !length_sapp. simpl in Hwf.
    assert (Forall (λ kv, (json_size kv.2 ≤ String.length (render kv.2))%nat) kvs) as Hall.
    { apply Forall_forall. intros y Hy. rewrite Forall_forall in IH. apply IH; [done|].
      rewrite forallb_forall in Hwf. apply (Hwf y). by apply list_elem_of_In. }
    pose proof (length_concat_members kvs Hall). unfold members_size in *. simpl in *. lia.
Qed.

(** Reading what [render] wrote gives the tree back. *)
Lemma json_parse_render j : wf_json j = true → json_parse (render j) = Some j.
Proof.
  intros Hwf. unfold json_parse.
  pose proof (wf_json_reads_back j Hwf (S (String.length (render j))) EmptyString) as Hp.
  rewrite sapp_nil_r in Hp. rewrite Hp; [done| |done].
  pose proof (json_size_length j Hwf). lia.
Qed.

(** ** Induction on attribute values *)

Fixpoint av_size (a : AttributeValue) : nat :=
  match a with
  | MemberL l => S (foldr (λ x n, av_size x + n) 0 l)
  | MemberM m => S (map_fold (λ _ x n, av_size x + n) 0 m)
  | _ => 1
  end.

Lemma av_size_elem l x :
  x ∈ l → (av_size x < av_size (MemberL l))%nat.
Proof.
  simpl. induction l as [|y l IH]; [by intros ?%elem_of_nil|].
  intros [->|Hin]%elem_of_cons; simpl; [lia|]. specialize (IH Hin). lia.
Qed.

Lemma av_size_lookup (m : gmap string AttributeValue) k x :
  m !! k = Some x → (av_size x < av_size (MemberM m))%nat.
Proof.
  intros Hk. simpl.
  rewrite (map_fold_delete_L _ _ k x m); [lia| |done].
  intros. lia.
Qed.

Lemma AttributeValue_nested_ind (P : AttributeValue → Prop) :
  (∀ v, P (MemberB v)) → (∀ v, P (MemberBOOL v)) → (∀ v, P (MemberBS v)) →
  (∀ l, Forall P l → P (MemberL l)) →
  (∀ m : gmap string AttributeValue, map_Forall (λ _, P) m → P (MemberM m)) →
  (∀ v, P (MemberN v)) → (∀ v, P (MemberNS v)) → (∀ v, P (MemberNULL v)) →
  (∀ v, P (MemberS v)) → (∀ v, P (MemberSS v)) →
  ∀ a, P a.
Proof.
  intros HB HBOOL HBS HL HM HN HNS HNULL HS HSS a.
  remember (av_size a) as n eqn:Hn. revert a Hn.
  induction n as [n IH] using lt_wf_ind. intros a ->.
  destruct a as [| | |l|m| | | | |]; auto.
  - apply HL, Forall_forall. intros x Hx. eapply IH; [|done]. by apply av_size_elem.
  - apply HM. intros k x Hk. eapply IH; [|done]. by eapply av_size_lookup.
Qed.

(** ** Maps through the codecs *)

Lemma map_sequence_Some {A B} (f : A → option B) (m : gmap string A) :
  (∀ k x, m !! k = Some x → is_Some (f x)) →
  map_sequence (f <$> m) = Some (omap f m).
Proof.
  intros Hall. unfold map_sequence. rewrite decide_True.
  - f_equal. apply map_eq. intros k. rewrite !lookup_omap, lookup_fmap.
    by destruct (m !! k).
  - intros k o. rewrite lookup_fmap. destruct (m !! k) as [x|] eqn:Hk; [|done].
    intros [= <-]. by eapply Hall.
Qed.

Lemma map_sequence_inv {A} (mo : gmap string (option A)) m :
  map_sequence mo = Some m → ∀ k, mo !! k = Some <$> (m !! k).
Proof.
  unfold map_sequence. case_decide as Hall; [|done]. intros [= <-] k.
  rewrite lookup_omap. destruct (mo !! k) as [o|] eqn:Hk; [|done].
  destruct (Hall k o Hk) as [x ->]. done.
Qed.

(** Reading the members of an object leaves, for each name, its last
    member; names that occur once are looked up as in the list. *)
Lemma members_to_map_list_to_map {A} (l : list (string * A)) :
  members_to_map l = list_to_map (reverse l).
Proof.
  unfold members_to_map. induction l as [|[k v] l IH] using rev_ind; [done|].
  by rewrite foldl_app, reverse_app, IH.
Qed.

Lemma members_to_map_sorted {A B} (g : A → B) (l : list (string * A)) (m : gmap string A) :
  l ≡ₚ map_to_list m →
  members_to_map (prod_map id g <$> l) = g <$> m.
Proof.
  intros Hl. rewrite members_to_map_list_to_map, <-fmap_reverse, list_to_map_fmap.
  f_equal. rewrite <-(list_to_map_to_list m). apply list_to_map_proper.
  - rewrite reverse_Permutation, Hl. apply NoDup_fst_map_to_list.
  - by rewrite reverse_Permutation.
Qed.

Lemma mapM_pair_Some {A B} (f : A → option B) (g : A → B) (l : list (string * A)) :
  Forall (λ kv, f kv.2 = Some (g kv.2)) l →
  mapM (λ kv, pair kv.1 <$> f kv.2) l = Some (prod_map id g <$> l).
Proof.
  intros Hall. apply mapM_Some. induction Hall as [|[k x] l Hx Hl IH]; constructor; [|done].
  simpl in *. by rewrite Hx.
Qed.

(** ** Attribute values through JSON and back *)

Section roundtrip.
Context `{Float64}.

(** A number survives the way through [float64] and its JSON literal. *)
Definition number_survives (n : string) : bool :=
  match ParseFloat n with
  | Some f =>
      match json_float f with
      | Some lit =>
          is_json_number lit &&
          match ParseFloat lit with
          | Some f' => bool_decide (FormatFloat f' = n)
          | None => false
          end
      | None => false
      end
  | None => false
  end.

(** The attribute values that the typed-JSON encoding represents:
    strings, booleans, null, the numbers that survive, and lists and maps
    of such values.  Binary values and the three set types come back as
    other types. *)
Fixpoint representable (av : AttributeValue) : bool :=
  match av with
  | MemberS _ | MemberBOOL _ => true
  | MemberNULL b => b
  | MemberN n => number_survives n
  | MemberL l => forallb representable l
  | MemberM m => bool_decide (map_Forall (λ _ b, b = true) (representable <$> m))
  | _ => false
  end.

Definition representable_item (it : Item) : bool := representable (MemberM it).

(** The value a JSON tree is read as; nil when it cannot be read. *)
Definition read_any (j : JSON) : any := default any_nil (to_any j).

(** The way of an attribute value through export and import. *)
Definition survives (a : AttributeValue) : Prop :=
  ∃ v j v', decode a = Some v ∧ json_of_any v = Some j ∧ wf_json j = true ∧
            to_any j = Some v' ∧ encode v' = a.

Lemma representable_lookup (m : gmap string AttributeValue) k x :
  representable (MemberM m) = true → m !! k = Some x → representable x = true.
Proof.
  simpl. intros Hall%bool_decide_eq_true Hk.
  apply (Hall k). by rewrite lookup_fmap, Hk.
Qed.

Lemma number_survives_spec n :
  number_survives n = true → survives (MemberN n).
Proof.
  unfold number_survives, survives.
  destruct (ParseFloat n) as [f|] eqn:Hf; [|done].
  destruct (json_float f) as [lit|] eqn:Hl; [|done].
  intros [Hnum Hb]%andb_true_iff.
  destruct (ParseFloat lit) as [f'|] eqn:Hf'; [|done].
  apply bool_decide_eq_true in Hb.
  exists (any_float64 f), (JNumber lit), (any_float64 f'). simpl.
  rewrite Hf, Hl, Hf'. simpl. by rewrite Hb.
Qed.

Lemma list_survives l :
  Forall survives l →
  ∃ vs js vs', mapM decode l = Some vs ∧ mapM json_of_any vs = Some js ∧
               forallb wf_json js = true ∧ mapM to_any js = Some vs' ∧ encode <$> vs' = l.
Proof.
  induction 1 as [|a l (v & j & v' & Hd & Hj & Hw & Ht & He) _ (vs & js & vs' & Hds & Hjs & Hws & Hts & Hes)].
  - by exists [], [], [].
  - exists (v :: vs), (j :: js), (v' :: vs').
    rewrite fmap_cons, He, Hes. simpl.
    by rewrite Hd, Hds, Hj, Hjs, Hw, Hws, Ht, Hts.
Qed.

Lemma map_survives (m : gmap string AttributeValue) :
  map_Forall (λ _, survives) m → survives (MemberM m).
Proof.
  intros Hm.
  set (mv := omap decode m).
  set (mj := omap json_of_any mv).
  assert (∀ k j, mj !! k = Some j →
            ∃ x v v', m !! k = Some x ∧ decode x = Some v ∧ json_of_any v = Some j ∧
                      wf_json j = true ∧ to_any j = Some v' ∧ encode v' = x) as Hmj.
  { intros k j. unfold mj, mv. rewrite !lookup_omap.
    destruct (m !! k) as [x|] eqn:Hk; [|done]. simpl.
    destruct (Hm k x Hk) as (v & j' & v' & Hd & Hj & Hw & Ht & He).
    rewrite Hd. simpl. rewrite Hj. intros [= <-]. by exists x, v, v'. }
  exists (any_map mv), (JObject (sorted_members mj)), (any_map (read_any <$> mj)).
  split; [|split; [|split; [|split]]].
  - simpl. rewrite map_sequence_Some; [done|].
    intros k x Hk. destruct (Hm k x Hk) as (v & _ & _ & -> & _). by eexists.
  - simpl. rewrite map_sequence_Some; [done|].
    intros k v. unfold mv. rewrite lookup_omap.
    destruct (m !! k) as [x|] eqn:Hk; [|done]. simpl. intros Hd.
    destruct (Hm k x Hk) as (v0 & j & _ & Hd0 & Hj & _).
    rewrite Hd in Hd0. injection Hd0 as ->. by eexists.
  - simpl. apply forallb_forall. intros [k j] Hin%list_elem_of_In. simpl.
    unfold sorted_members in Hin. rewrite merge_sort_Permutation in Hin.
    apply elem_of_map_to_list in Hin.
    by destruct (Hmj k j Hin) as (_ & _ & _ & _ & _ & _ & ? & _).
  - simpl. rewrite (mapM_pair_Some to_any read_any).
    + simpl. f_equal. f_equal. apply members_to_map_sorted.
      unfold sorted_members. apply merge_sort_Permutation.
    + apply Forall_forall. intros [k j] Hin. simpl.
      unfold sorted_members in Hin. rewrite merge_sort_Permutation in Hin.
      apply elem_of_map_to_list in Hin.
      destruct (Hmj k j Hin) as (_ & _ & v' & _ & _ & _ & _ & Ht & _).
      unfold read_any. by rewrite Ht.
  - simpl. f_equal. apply map_eq. intros k. rewrite !lookup_fmap.
    destruct (mj !! k) as [j|] eqn:Hk.
    + destruct (Hmj k j Hk) as (x & v & v' & -> & _ & _ & _ & Ht & He).
      simpl. unfold read_any. rewrite Ht. simpl. by rewrite He.
    + unfold mj, mv in Hk. rewrite !lookup_omap in Hk.
      destruct (m !! k) as [x|] eqn:Hx; [|done]. simpl in Hk.
      destruct (Hm k x Hx) as (v & j & _ & Hd & Hj & _).
      rewrite Hd in Hk. simpl in Hk. congruence.
Qed.

(** Every representable value survives. *)
Lemma representable_survives a : representable a = true → survives a.
Proof.
  induction a as [b|b|l|l IH|m IH|n|l|b|s|l] using AttributeValue_nested_ind;
    intros Hr; try done.
  - by exists (any_bool b), (JBool b), (any_bool b).
  - simpl in Hr.
    destruct (list_survives l) as (vs & js & vs' & Hd & Hj & Hw & Ht & He).
    { apply Forall_forall. intros x Hx. rewrite Forall_forall in IH. apply IH; [done|].
      rewrite forallb_forall in Hr. apply Hr. by apply list_elem_of_In. }
    exists (any_slice vs), (JArray js), (any_slice vs'). simpl.
    rewrite Hd, Hj, Ht. simpl. by rewrite He.
  - apply map_survives. intros k x Hk. apply (IH k x Hk).
    by eapply representable_lookup.
  - by apply number_survives_spec.
  - simpl in Hr. subst b. by exists any_nil, JNull, any_nil.
  - by exists (any_string s), (JString s), (any_string s).
Qed.
End roundtrip.

(** ** Items and documents through JSON and back *)

Section document_roundtrip.
Context `{Float64}.

Lemma item_survives (it : Item) :
  representable_item it = true →
  ∃ itv j itv', decode_item it = Some itv ∧ json_of_item itv = Some j ∧
                wf_json j = true ∧ to_item ∅ j = Some itv' ∧ MarshalMap itv' = it.
Proof.
  intros (v & j & v' & Hd & Hj & Hw & Ht & He)%representable_survives.
  simpl in Hd.
  destruct (map_sequence (decode <$> it)) as [itv|] eqn:Hitv; [|done]. injection Hd as <-.
  simpl in Hj.
  destruct (map_sequence (json_of_any <$> itv)) as [mj|] eqn:Hmj; [|done]. injection Hj as <-.
  simpl in Ht.
  destruct (mapM (λ kv, pair kv.1 <$> to_any kv.2) (sorted_members mj)) as [l|] eqn:Hl; [|done].
  injection Ht as <-. simpl in He. injection He as He.
  exists itv, (JObject (sorted_members mj)), (members_to_map l).
  split; [done|]. split; [unfold json_of_item; simpl; by rewrite Hmj|].
  split; [done|]. split; [|done].
  unfold to_item, to_members. by rewrite Hl.
Qed.

Lemma items_survive (items : list Item) :
  Forall (λ it, representable_item it = true) items →
  ∃ its js its', UnmarshalListOfMaps items = Some its ∧ mapM json_of_item its = Some js ∧
                 forallb wf_json js = true ∧ to_items [] js = Some its' ∧
                 MarshalMap <$> its' = items.
Proof.
  unfold UnmarshalListOfMaps.
  induction 1 as [|it items (itv & j & itv' & Hd & Hj & Hw & Ht & He)%item_survives _
                    (its & js & its' & Hds & Hjs & Hws & Hts & Hes)].
  - by exists [], [], [].
  - exists (itv :: its), (j :: js), (itv' :: its').
    rewrite fmap_cons, He, Hes. simpl in *.
    by rewrite Hd, Hds, Hj, Hjs, Hw, Hws, Ht, Hts.
Qed.

Lemma exportFormat_of_document tn pk rk js :
  exportFormat_of_json (document tn pk rk js) =
  its ← to_items [] js;
  Some {| TableName := tn; PrimaryKey := pk; RangeKey := rk; Items := its |}.
Proof. reflexivity. Qed.

(** Reading the text of a document whose item trees are well formed. *)
Lemma json_Unmarshal_document tn pk rk js :
  forallb wf_json js = true →
  json_Unmarshal (render (document tn pk rk js)) =
  its ← to_items [] js;
  Some {| TableName := tn; PrimaryKey := pk; RangeKey := rk; Items := its |}.
Proof.
  intros Hw. unfold json_Unmarshal.
  rewrite json_parse_render; [apply exportFormat_of_document|].
  simpl. by rewrite Hw.
Qed.

(** X6: a table's items, all representable, make a document that reads back
    as the same items. *)
Lemma document_survives tn pk rk (items : list Item) :
  Forall (λ it, representable_item it = true) items →
  ∃ its out its',
    UnmarshalListOfMaps items = Some its ∧
    json_Marshal {| TableName := tn; PrimaryKey := pk; RangeKey := rk; Items := its |} = Some out ∧
    json_Unmarshal out =
      Some {| TableName := tn; PrimaryKey := pk; RangeKey := rk; Items := its' |} ∧
    MarshalMap <$> its' = items.
Proof.
  intros (its & js & its' & Hd & Hj & Hw & Ht & He)%items_survive.
  exists its, (render (document tn pk rk js)), its'.
  split; [done|]. split; [|split; [|done]].
  - unfold json_Marshal, json_of_exportFormat. simpl. by rewrite Hj.
  - rewrite json_Unmarshal_document by done. by rewrite Ht.
Qed.
End document_roundtrip.

(** ** Runs without failures of the store *)

(** No request to come is scheduled to fail. *)
Definition fault_free (w : World) : Prop := Forall (λ f, f = None) (w_faults w).

Lemma fault_free_head w e : fault_free w → head (w_faults w) ≠ Some (Some e).
Proof.
  unfold fault_free. destruct (w_faults w) as [|f fs]; [done|].
  intros [-> _]%Forall_cons. done.
Qed.

Lemma fault_free_tail w w' : fault_free w → w_faults w' = tail (w_faults w) → fault_free w'.
Proof.
  unfold fault_free. intros Hf ->. destruct (w_faults w); [done|].
  by apply Forall_cons in Hf as [_ ?].
Qed.

Lemma request_fault_free {A} ev run w :
  fault_free w →
  ∃ w', @request A ev run w =
          (w', match run (w_tables w) with inl e => Err e | inr (_, a) => Ok a end) ∧
        fault_free w' ∧ same_env w w' ∧
        w_tables w' = match run (w_tables w) with inl _ => w_tables w | inr (ts, _) => ts end.
Proof.
  intros Hf. unfold request.
  destruct (head (w_faults w)) as [[e|]|] eqn:Hh.
  - by apply fault_free_head in Hh.
  - destruct (run (w_tables w)) as [e|[ts a]]; eexists; (split; [done|]);
      (split; [by eapply fault_free_tail|]); by repeat split.
  - destruct (run (w_tables w)) as [e|[ts a]]; eexists; (split; [done|]);
      (split; [by eapply fault_free_tail|]); by repeat split.
Qed.

(** ** The pages of a scan *)

(** The items a paginator has yet to return. *)
Definition remaining (p : ScanPaginator) (items : list Item) : list Item :=
  if HasMorePages p then drop (default 0 (sp_nextToken p)) items else [].

Lemma NextPage_Ok p w w1 out p' :
  NextPage p w = (w1, Ok (out, p')) →
  ∃ t, w_tables w !! sp_TableName p = Some t ∧
       w_tables w1 = w_tables w ∧ w_scan_limit w1 = w_scan_limit w ∧
       sp_TableName p' = sp_TableName p ∧
       remaining p (tbl_items t) = so_Items out ++ remaining p' (tbl_items t).
Proof.
  unfold NextPage. destruct (HasMorePages p) eqn:Hmore; [|done].
  intros [(w2 & a & Hs & Hk)|[(e & _ & ?)|[_ ?]]]%bind_inv; [|done..].
  injection Hk as -> <- <-.
  apply request_inv in Hs as (He & _ & _ & Hr & _).
  destruct (w_tables w !! sp_TableName p) as [t|] eqn:Ht; [|done].
  injection Hr as Hts <-. exists t. split; [done|]. split; [done|].
  split; [apply He|]. split; [done|].
  unfold remaining at 1. rewrite Hmore. simpl.
  set (rest := drop (default 0 (sp_nextToken p)) (tbl_items t)).
  unfold remaining, HasMorePages. simpl.
  case_decide as Hlen.
  - rewrite bool_decide_eq_true_2 by eauto. simpl.
    rewrite <-drop_drop. fold rest. by rewrite take_drop.
  - rewrite bool_decide_eq_false_2 by (by intros [? ?]).
    rewrite app_nil_r. rewrite take_ge; [done|lia].
Qed.

(** A scan that succeeds returns the pages in order, and together they
    are the items of the table that were left to return. *)
Lemma scan_pages_Ok fuel p acc w w' items t :
  w_tables w !! sp_TableName p = Some t →
  scan_pages fuel p acc w = (w', Ok items) →
  items = acc ++ remaining p (tbl_items t).
Proof.
  revert p acc w. induction fuel as [|fuel IH]; intros p acc w Ht; simpl.
  - unfold remaining. destruct (HasMorePages p); [done|].
    intros [= <- <-]. by rewrite app_nil_r.
  - destruct (HasMorePages p) eqn:Hmore.
    + intros [(w1 & [out p'] & Hn & Hk)|[(e & _ & ?)|[_ ?]]]%bind_inv; [|done..].
      apply NextPage_Ok in Hn as (t' & Ht' & Hts & _ & Hname & Hrem).
      assert (t' = t) as -> by congruence.
      apply IH in Hk; [|by rewrite Hname, Hts].
      by rewrite Hk, Hrem, app_assoc.
    + intros [= <- <-]. unfold remaining. by rewrite Hmore, app_nil_r.
Qed.

Lemma remaining_first tn items : remaining (NewScanPaginator tn) items = items.
Proof. done. Qed.

Lemma Scan_fault_free limit tn start w t :
  fault_free w →
  w_tables w !! tn = Some t →
  let rest := drop (default 0 start) (tbl_items t) in
  ∃ w1, Scan limit tn start w =
          (w1, Ok {| so_Items := take (S limit) rest;
                     so_LastEvaluatedKey :=
                       if decide (S limit < length rest)
                       then Some (default 0 start + S limit) else None |}) ∧
        fault_free w1 ∧ same_env w w1 ∧ w_tables w1 = w_tables w.
Proof.
  intros Hf Ht rest. unfold Scan.
  match goal with
  | |- context [request ?ev ?run w] =>
      destruct (request_fault_free ev run w Hf) as (w1 & Hr & Hf1 & He1 & Hts)
  end.
  rewrite Ht in Hr, Hts. by exists w1.
Qed.

(** Without failures of the store the scan ends, with one unit of fuel
    for each item left and one more. *)
Lemma scan_pages_fault_free fuel p acc w t :
  fault_free w →
  w_tables w !! sp_TableName p = Some t →
  (HasMorePages p = true → length (remaining p (tbl_items t)) < fuel) →
  ∃ w', scan_pages fuel p acc w = (w', Ok (acc ++ remaining p (tbl_items t))) ∧
        fault_free w' ∧ same_env w w' ∧ w_tables w' = w_tables w.
Proof.
  revert p acc w. induction fuel as [|fuel IH]; intros p acc w Hf Ht Hfuel.
  { simpl. destruct (HasMorePages p) eqn:Hmore; [specialize (Hfuel eq_refl); lia|].
    exists w. unfold remaining. rewrite Hmore, app_nil_r. by repeat split. }
  simpl. destruct (HasMorePages p) eqn:Hmore.
  - specialize (Hfuel eq_refl).
    unfold NextPage. rewrite Hmore. unfold mbind, Go_bind.
    destruct (Scan_fault_free (w_scan_limit w) (sp_TableName p) (sp_nextToken p) w t Hf Ht)
      as (w1 & -> & Hf1 & He1 & Hts1).
    unfold remaining in Hfuel |- *. rewrite Hmore in Hfuel |- *.
    set (rest := drop (default 0 (sp_nextToken p)) (tbl_items t)) in *.
    simpl.
    match goal with
    | |- context [scan_pages fuel ?p' ?acc' w1] =>
        destruct (IH p' acc' w1 Hf1) as (w' & Hs & Hf' & He' & Hts')
    end.
    + simpl. by rewrite Hts1.
    + unfold remaining, HasMorePages. simpl. case_decide as Hlen.
      * rewrite bool_decide_eq_true_2 by eauto. simpl. intros _.
        rewrite <-drop_drop. fold rest. rewrite length_drop.
        revert Hfuel Hlen. generalize (length rest) (w_scan_limit w). clear. intros. lia.
      * by rewrite bool_decide_eq_false_2 by (by intros [? ?]).
    + exists w'. rewrite Hs. split; [|split; [done|split; [by eapply same_env_trans|congruence]]].
      f_equal. f_equal. rewrite <-app_assoc. f_equal.
      unfold remaining, HasMorePages. simpl. case_decide as Hlen.
      * rewrite bool_decide_eq_true_2 by eauto. simpl.
        rewrite <-drop_drop. fold rest. by rewrite take_drop.
      * rewrite bool_decide_eq_false_2 by (by intros [? ?]).
        rewrite app_nil_r. rewrite take_ge; [done|lia].
  - exists w. unfold remaining. rewrite Hmore, app_nil_r. repeat split; try done.
Qed.

Lemma scan_pages_events fuel p acc w w' r :
  scan_pages fuel p acc w = (w', r) →
  ∃ evs, w_log w' = w_log w ++ evs ∧ Forall is_scan evs.
Proof.
  revert p acc w. induction fuel as [|fuel IH]; intros p acc w; simpl.
  - destruct (HasMorePages p); intros [= <- <-]; exists []; by rewrite app_nil_r.
  - destruct (HasMorePages p) eqn:Hmore;
      [|intros [= <- <-]; exists []; by rewrite app_nil_r].
    unfold NextPage. rewrite Hmore.
    intros [(w1 & [out p'] & Hn & Hk)|[(e & Hn & ->)|[Hn ->]]]%bind_inv.
    + apply bind_inv in Hn as [(w2 & a & Hs & Hk')|[(e & _ & ?)|[_ ?]]]; [|done..].
      injection Hk' as -> _ _.
      apply request_inv in Hs as (_ & _ & Hl & _). apply IH in Hk as (evs & Hl' & Hevs).
      eexists. rewrite Hl', Hl, <-app_assoc. split; [done|]. by constructor.
    + apply bind_inv in Hn as [(w2 & a & Hs & Hk')|[(e' & Hs & _)|[_ ?]]]; [done| |done].
      apply request_inv in Hs as (_ & _ & Hl & _). eexists. split; [done|]. by repeat constructor.
    + apply bind_inv in Hn as [(w2 & a & Hs & Hk')|[(e' & Hs & ?)|[Hs _]]]; [done|done|].
      by apply request_inv in Hs as (_ & _ & _ & ?).
Qed.

Section export_results.
Context `{Float64}.

(** X1: the document of a successful export is made of the table's name, its
    key schema and all its items in scan order, however the scan was cut
    into pages. *)
Theorem export_holds_every_item fuel tableName w w' out t :
  w_tables w !! tableName = Some t →
  export fuel tableName w = (w', Ok out) →
  ∃ its, UnmarshalListOfMaps (tbl_items t) = Some its ∧
         json_Marshal (export_doc tableName t its) = Some out.
Proof.
  intros Ht (t' & w1 & table & items & its & Ht' & Hd & Hs & Hu & Hm)%export_Ok_inv.
  assert (t' = t) as -> by congruence.
  apply DescribeTable_read in Hd as (Hts & _).
  apply (scan_pages_Ok _ _ _ _ _ _ t) in Hs; [|simpl; by rewrite Hts].
  simpl in Hs. rewrite remaining_first in Hs. subst items. by exists its.
Qed.

(** X2: when the store does not fail, the table exists, its items decode and
    the document serializes, export returns the document, given fuel for
    one page per item and one more. *)
Theorem export_succeeds fuel tableName w t its out :
  fault_free w →
  w_tables w !! tableName = Some t →
  length (tbl_items t) < fuel →
  UnmarshalListOfMaps (tbl_items t) = Some its →
  json_Marshal (export_doc tableName t its) = Some out →
  ∃ w', export fuel tableName w = (w', Ok out) ∧ w_tables w' = w_tables w ∧
        fault_free w' ∧ same_env w w'.
Proof.
  intros Hf Ht Hfuel Hu Hm. unfold export, DescribeTable.
  match goal with
  | |- context [request ?ev ?run] =>
      destruct (request_fault_free ev run w Hf) as (w1 & Hr & Hf1 & He1 & Hts1)
  end.
  rewrite Ht in Hr, Hts1.
  unfold mbind at 1, Go_bind at 1. rewrite Hr. simpl.
  destruct (scan_pages_fault_free fuel (NewScanPaginator tableName) [] w1 t Hf1)
    as (w' & Hs & Hf' & He' & Hts'); [simpl; by rewrite Hts1|done|].
  simpl in Hs. rewrite remaining_first in Hs.
  unfold mbind at 1, Go_bind at 1. rewrite Hs.
  unfold mbind at 1, Go_bind at 1. rewrite Hu. simpl.
  unfold mbind at 1, Go_bind at 1.
  unfold export_doc in Hm. simpl in Hm. rewrite Hm. simpl.
  exists w'. split; [done|]. split; [congruence|]. split; [done|].
  by eapply same_env_trans.
Qed.

(** X3: when describe-table fails, export returns its error and sends the
    store nothing else: no scan request. *)
Theorem export_describe_failure fuel tableName w w' r e :
  export fuel tableName w = (w', r) →
  EvDescribeTable tableName (Some e) ∈ new_events w w' →
  r = Err e ∧ new_events w w' = [EvDescribeTable tableName (Some e)].
Proof.
  unfold export.
  intros [(w1 & table & Hd & Hk)|[(e' & Hd & ->)|[Hd ->]]]%bind_inv Hin.
  - exfalso.
    pose proof Hd as (_ & _ & Hl & _)%request_inv. simpl in Hl.
    assert (∃ evs, w_log w' = w_log w1 ++ evs ∧ Forall is_scan evs) as (evs & Hl2 & Hevs).
    { apply bind_inv in Hk as [(w2 & items & Hs & Hk)|[(e' & Hs & ->)|[Hs ->]]];
        [|by apply scan_pages_events in Hs..].
      apply scan_pages_events in Hs.
      assert (w' = w2) as ->; [|done].
      apply bind_inv in Hk as [(w3 & its & [-> _]%or_fail_inv & Hk)|[(e' & [-> _]%or_fail_inv & ->)|[[-> _]%or_fail_inv _]]]; [|done..].
      apply bind_inv in Hk as [(w4 & dump & [-> _]%or_fail_inv & Hk)|[(e' & [-> _]%or_fail_inv & ->)|[[-> _]%or_fail_inv _]]]; [|done..].
      by inversion Hk. }
    rewrite Hl, <-app_assoc in Hl2. rewrite (new_events_app _ _ _ Hl2) in Hin.
    apply elem_of_cons in Hin as [?|Hin]; [done|].
    rewrite Forall_forall in Hevs. by apply Hevs in Hin.
  - pose proof Hd as (_ & _ & Hl & _)%request_inv. simpl in Hl.
    rewrite (new_events_app _ _ _ Hl) in Hin |- *.
    apply list_elem_of_singleton in Hin. by injection Hin as <-.
  - by apply request_inv in Hd as (_ & _ & _ & ?).
Qed.
End export_results.

(** A page that announces another one has taken something off what was
    left. *)
Lemma NextPage_shrinks p w w1 out p' t :
  w_tables w !! sp_TableName p = Some t →
  NextPage p w = (w1, Ok (out, p')) →
  HasMorePages p' = true →
  length (remaining p' (tbl_items t)) < length (remaining p (tbl_items t)).
Proof.
  intros Ht. unfold NextPage. destruct (HasMorePages p) eqn:Hmore; [|done].
  intros [(w2 & a & Hs & Hk)|[(e & _ & ?)|[_ ?]]]%bind_inv; [|done..].
  injection Hk as -> <- <-.
  apply request_inv in Hs as (_ & _ & _ & Hr & _).
  rewrite Ht in Hr. injection Hr as _ <-.
  unfold remaining at 2. rewrite Hmore.
  unfold remaining, HasMorePages. simpl.
  set (rest := drop (default 0 (sp_nextToken p)) (tbl_items t)).
  case_decide as Hlen; [|done]. intros _. simpl.
  rewrite <-drop_drop. fold rest. rewrite length_drop.
  revert Hlen. generalize (length rest) (w_scan_limit w). clear. intros. lia.
Qed.

(** The loop over the pages ends, whatever the store answers, given one
    unit of fuel for each item left and one more. *)
Lemma scan_pages_ends fuel p acc w t :
  w_tables w !! sp_TableName p = Some t →
  (HasMorePages p = true → length (remaining p (tbl_items t)) < fuel) →
  (scan_pages fuel p acc w).2 ≠ OutOfFuel.
Proof.
  revert p acc w. induction fuel as [|fuel IH]; intros p acc w Ht Hfuel; simpl.
  { destruct (HasMorePages p); [specialize (Hfuel eq_refl); lia|done]. }
  destruct (HasMorePages p) eqn:Hmore; [|done]. specialize (Hfuel eq_refl).
  unfold mbind, Go_bind. destruct (NextPage p w) as [w1 [[out p']|e|]] eqn:Hn; [|done|].
  - destruct (NextPage_Ok _ _ _ _ _ Hn) as (t' & Ht' & Hts & _ & Hname & _).
    apply IH; [by rewrite Hname, Hts|].
    intros Hmore'. pose proof (NextPage_shrinks _ _ _ _ _ _ Ht Hn Hmore'). lia.
  - unfold NextPage in Hn. rewrite Hmore in Hn.
    apply bind_inv in Hn as [(? & ? & _ & ?)|[(? & _ & ?)|[Hs _]]]; [done..|].
    by apply request_inv in Hs as (_ & _ & _ & ?).
Qed.

Section export_ends.
Context `{Float64}.

(** X4: export ends: with fuel for one page per item of the table and one
    more, it returns a document or an error, whatever the page size and
    whichever requests fail. *)
Theorem export_terminates fuel tableName w :
  (∀ t, w_tables w !! tableName = Some t → length (tbl_items t) < fuel) →
  ∃ w', (∃ out, export fuel tableName w = (w', Ok out)) ∨
        (∃ e, export fuel tableName w = (w', Err e)).
Proof.
  intros Hfuel. destruct (export fuel tableName w) as [w' r] eqn:He. exists w'.
  destruct r as [out|e|]; [eauto..|]. exfalso.
  unfold export in He.
  apply bind_inv in He as [(w1 & table & Hd & Hk)|[(e & _ & ?)|[Hd _]]]; [|done|].
  2:{ by apply request_inv in Hd as (_ & _ & _ & ?). }
  destruct (DescribeTable_Ok _ _ _ _ Hd) as (t & Ht & _).
  apply DescribeTable_read in Hd as (Hts & _).
  apply bind_inv in Hk as [(w2 & items & Hs & Hk)|[(e & _ & ?)|[Hs _]]]; [|done|].
  - apply bind_inv in Hk as [(w3 & its & _ & Hk)|[(e & _ & ?)|[Hu _]]]; [|done|].
    + apply bind_inv in Hk as [(w4 & dump & _ & Hk)|[(e & _ & ?)|[Hm _]]]; [done|done|].
      by destruct (json_Marshal _).
    + by destruct (UnmarshalListOfMaps items).
  - eapply (scan_pages_ends fuel (NewScanPaginator tableName) [] w1 t).
    + simpl. by rewrite Hts.
    + intros _. rewrite remaining_first. by apply Hfuel.
    + by rewrite Hs.
Qed.
End export_ends.

(** ** The items of a table as a keyed list *)

Definition with_items (t : Table) (l : list Item) : Table :=
  {| tbl_KeySchema := tbl_KeySchema t;
     tbl_AttributeDefinitions := tbl_AttributeDefinitions t;
     tbl_items := l |}.

Lemma with_items_id t : with_items t (tbl_items t) = t.
Proof. by destruct t. Qed.

Lemma item_key_with_items t l it : item_key (with_items t l) it = item_key t it.
Proof. done. Qed.

Lemma put_item_with_items t l' k it l :
  put_item (with_items t l') k it l = put_item t k it l.
Proof.
  induction l as [|x l IH]; simpl; [done|].
  rewrite item_key_with_items. case_decide; [done|]. by rewrite IH.
Qed.

Section keyed_lists.
Variable t : Table.

(** The first item with key [k]. *)
Definition get_item (k : list KeyValue) (l : list Item) : option Item :=
  List.find (λ x, bool_decide (item_key t x = Some k)) l.

(** Every item has a key and no two have the same. *)
Definition keyed (l : list Item) : Prop :=
  Forall (λ x, is_Some (item_key t x)) l ∧ NoDup (item_key t <$> l).

(** The items of [P], each with a key, written one after the other. *)
Definition put_all (P l : list Item) : list Item :=
  foldl (λ l x, match item_key t x with Some k => put_item t k x l | None => l end) l P.

Lemma get_item_None k l : Some k ∉ item_key t <$> l → get_item k l = None.
Proof.
  induction l as [|x l IH]; simpl; [done|].
  rewrite not_elem_of_cons. intros [Hx Hl].
  rewrite bool_decide_eq_false_2 by done. by apply IH.
Qed.

Lemma get_item_put k k' x l :
  item_key t x = Some k →
  get_item k' (put_item t k x l) = if decide (k = k') then Some x else get_item k' l.
Proof.
  intros Hx. induction l as [|y l IH]; simpl.
  - rewrite Hx. case_decide as Hk.
    + subst. by rewrite bool_decide_eq_true_2.
    + rewrite bool_decide_eq_false_2; [done|congruence].
  - destruct (decide (item_key t y = Some k)) as [Hy|Hy]; simpl.
    + rewrite Hx, Hy. case_decide as Hk.
      * subst. by rewrite bool_decide_eq_true_2.
      * rewrite !bool_decide_eq_false_2; [done|congruence..].
    + rewrite IH. case_decide as Hk; [|done].
      subst. by rewrite bool_decide_eq_false_2.
Qed.

Lemma keys_put k x l :
  item_key t x = Some k →
  item_key t <$> put_item t k x l =
  if decide (Some k ∈ item_key t <$> l) then item_key t <$> l
  else (item_key t <$> l) ++ [Some k].
Proof.
  intros Hx. induction l as [|y l IH].
  - simpl. by rewrite Hx.
  - cbn [put_item]. rewrite (fmap_cons _ y l).
    destruct (decide (item_key t y = Some k)) as [Hy|Hy].
    + rewrite fmap_cons, Hx, Hy.
      by rewrite decide_True by apply list_elem_of_here.
    + rewrite fmap_cons, IH. destruct (decide (Some k ∈ item_key t <$> l)) as [Hin|Hin].
      * by rewrite decide_True by (by apply list_elem_of_further).
      * rewrite decide_False; [done|]. rewrite not_elem_of_cons. split; [congruence|done].
Qed.

Lemma keyed_put k x l : item_key t x = Some k → keyed l → keyed (put_item t k x l).
Proof.
  intros Hx [Hall Hnd]. split.
  - clear Hnd. induction l as [|y l IH]; simpl.
    + repeat constructor. by rewrite Hx.
    + apply Forall_cons in Hall as [Hy Hl]. case_decide.
      * constructor; [by rewrite Hx|done].
      * constructor; [done|by apply IH].
  - rewrite keys_put by done. case_decide as Hin; [done|].
    apply NoDup_app. split; [done|]. split; [|apply NoDup_singleton].
    intros o Ho ->%list_elem_of_singleton. done.
Qed.

(** Two keyed lists with the same keys in the same order and the same
    item under every key are the same list. *)
Lemma keyed_ext l1 l2 :
  keyed l1 → item_key t <$> l1 = item_key t <$> l2 →
  (∀ k, get_item k l1 = get_item k l2) → l1 = l2.
Proof.
  revert l2. induction l1 as [|x1 l1 IH]; intros [|x2 l2] [Hall Hnd] Hkeys Hget;
    try done. rewrite !fmap_cons in Hkeys. injection Hkeys as Hk Hkeys.
  apply Forall_cons in Hall as [[k Hx1] Hall]. rewrite fmap_cons in Hnd.
  apply NoDup_cons in Hnd as [Hnin Hnd].
  assert (x1 = x2) as <-.
  { specialize (Hget k). simpl in Hget.
    rewrite <-Hk, Hx1 in Hget. rewrite !bool_decide_eq_true_2 in Hget by done. congruence. }
  f_equal. apply IH; [done|done|]. intros k'.
  destruct (decide (k' = k)) as [->|Hne].
  - assert (Some k ∉ item_key t <$> l1) as Hn1 by (by rewrite <-Hx1).
    assert (Some k ∉ item_key t <$> l2) as Hn2 by (by rewrite <-Hkeys).
    by rewrite (get_item_None k l1 Hn1), (get_item_None k l2 Hn2).
  - specialize (Hget k'). simpl in Hget.
    rewrite Hx1 in Hget. rewrite !bool_decide_eq_false_2 in Hget by congruence. done.
Qed.

Lemma put_all_snoc P x l k :
  item_key t x = Some k → put_all (P ++ [x]) l = put_item t k x (put_all P l).
Proof. intros Hx. unfold put_all. rewrite foldl_app. simpl. by rewrite Hx. Qed.

Lemma keyed_put_all P l :
  Forall (λ x, is_Some (item_key t x)) P → keyed l → keyed (put_all P l).
Proof.
  induction P as [|x P IH] using rev_ind; [done|].
  intros [HP [[k Hx] _]%Forall_cons]%Forall_app Hl.
  rewrite (put_all_snoc _ _ _ k) by done. apply keyed_put; [done|]. by apply IH.
Qed.

(** After the writes, the item under a key is the last one written under
    that key, or the one that was there. *)
Lemma get_item_put_all k P l :
  Forall (λ x, is_Some (item_key t x)) P →
  get_item k (put_all P l) =
  match get_item k (reverse P) with Some x => Some x | None => get_item k l end.
Proof.
  induction P as [|x P IH] using rev_ind; [done|].
  intros [HP [[k' Hx] _]%Forall_cons]%Forall_app.
  rewrite (put_all_snoc _ _ _ k') by done. rewrite get_item_put by done.
  rewrite reverse_app. simpl. rewrite Hx. case_decide as Hk.
  - subst. by rewrite bool_decide_eq_true_2.
  - rewrite bool_decide_eq_false_2 by congruence. by apply IH.
Qed.

Lemma keys_put_all_present P l :
  Forall (λ x, item_key t x ∈ item_key t <$> l) P →
  Forall (λ x, is_Some (item_key t x)) P →
  item_key t <$> put_all P l = item_key t <$> l.
Proof.
  induction P as [|x P IH] using rev_ind; [done|].
  intros [HP [Hin _]%Forall_cons]%Forall_app [HP' [[k Hx] _]%Forall_cons]%Forall_app.
  rewrite (put_all_snoc _ _ _ k) by done. rewrite keys_put by done.
  rewrite IH by done. rewrite decide_True; [done|]. by rewrite <-Hx.
Qed.

Lemma keys_put_all_incl P l o :
  Forall (λ x, is_Some (item_key t x)) P →
  o ∈ item_key t <$> l → o ∈ item_key t <$> put_all P l.
Proof.
  induction P as [|x P IH] using rev_ind; [done|].
  intros [HP [[k Hx] _]%Forall_cons]%Forall_app Ho.
  rewrite (put_all_snoc _ _ _ k) by done. rewrite keys_put by done.
  case_decide; [by apply IH|]. apply elem_of_app. left. by apply IH.
Qed.

Lemma keys_put_all_written P l :
  Forall (λ x, is_Some (item_key t x)) P →
  Forall (λ x, item_key t x ∈ item_key t <$> put_all P l) P.
Proof.
  induction P as [|x P IH] using rev_ind; [constructor|].
  intros [HP [[k Hx] _]%Forall_cons]%Forall_app.
  assert (∀ o, o ∈ item_key t <$> put_all P l → o ∈ item_key t <$> put_all (P ++ [x]) l) as Hincl.
  { intros o Ho. rewrite (put_all_snoc _ _ _ k) by done. rewrite keys_put by done.
    case_decide; [done|]. apply elem_of_app. by left. }
  apply Forall_app. split.
  - eapply Forall_impl; [by apply IH|]. intros y Hy. by apply Hincl.
  - repeat constructor. rewrite (put_all_snoc _ _ _ k) by done.
    rewrite keys_put by done. rewrite Hx.
    case_decide; [done|]. apply elem_of_app. right. apply list_elem_of_here.
Qed.

(** Writing the same items once more changes nothing. *)
Lemma put_all_idempotent P l :
  Forall (λ x, is_Some (item_key t x)) P → keyed l →
  put_all P (put_all P l) = put_all P l.
Proof.
  intros HP Hl. apply keyed_ext.
  - by apply keyed_put_all, keyed_put_all.
  - apply keys_put_all_present; [|done]. by apply keys_put_all_written.
  - intros k. rewrite (get_item_put_all k P (put_all P l)) by done.
    rewrite (get_item_put_all k P l) by done.
    by destruct (get_item k (reverse P)).
Qed.

(** Written into an empty list, items with distinct keys come out as
    they went in. *)
Lemma put_all_fresh P acc :
  keyed (acc ++ P) → put_all P acc = acc ++ P.
Proof.
  revert acc. induction P as [|x P IH]; intros acc [Hall Hnd]; [by rewrite app_nil_r|].
  assert (∃ k, item_key t x = Some k) as [k Hx].
  { apply Forall_app in Hall as [_ [? _]%Forall_cons]. done. }
  assert (put_item t k x acc = acc ++ [x]) as Hput.
  { rewrite fmap_app in Hnd. apply NoDup_app in Hnd as (_ & Hnin & _).
    assert (∀ y, y ∈ acc → item_key t y ≠ Some k) as Hacc.
    { intros y Hy Heq. apply (Hnin (Some k)).
      - rewrite <-Heq. by apply list_elem_of_fmap_2.
      - simpl. rewrite Hx. apply list_elem_of_here. }
    clear -Hacc. induction acc as [|y acc IH]; simpl; [done|].
    rewrite decide_False by (apply Hacc, list_elem_of_here).
    rewrite IH; [done|]. intros z Hz. apply Hacc. by apply list_elem_of_further. }
  unfold put_all. simpl. rewrite Hx, Hput. fold (put_all P (acc ++ [x])).
  rewrite IH; [by rewrite <-app_assoc|]. by rewrite <-app_assoc.
Qed.
End keyed_lists.

(** ** Imports without failures of the store *)

(** What the writes of an import do to the tables when no request is
    made to fail: each item is written in turn until the store refuses
    one. *)
Fixpoint run_puts (tn : string) (items : list Item) (ts : gmap string Table)
  : gmap string Table * Result unit :=
  match items with
  | [] => (ts, Ok tt)
  | item :: items =>
      match ts !! tn with
      | None => (ts, Err ResourceNotFoundException)
      | Some t =>
          match item_key t item with
          | None => (ts, Err ValidationException)
          | Some k =>
              run_puts tn items
                (<[tn := with_items t (put_item t k item (tbl_items t))]> ts)
          end
      end
  end.

(** Whether the store accepts the item in table [t]. *)
Definition has_key (t : Table) (item : Item) : bool :=
  match item_key t item with Some _ => true | None => false end.

(** The items before the first that has no key. *)
Fixpoint keyed_prefix (t : Table) (items : list Item) : list Item :=
  match items with
  | [] => []
  | item :: items =>
      if has_key t item then item :: keyed_prefix t items else []
  end.

Lemma keyed_prefix_keyed t items :
  Forall (λ x, is_Some (item_key t x)) (keyed_prefix t items).
Proof.
  induction items as [|x items IH]; simpl; [constructor|]. unfold has_key.
  destruct (item_key t x) eqn:Hx; constructor; [by rewrite Hx|done].
Qed.

Lemma keyed_prefix_with_items t l items :
  keyed_prefix (with_items t l) items = keyed_prefix t items.
Proof. induction items as [|x items IH]; simpl; [done|]. by rewrite IH. Qed.

Lemma put_all_with_items t l' P l : put_all (with_items t l') P l = put_all t P l.
Proof.
  revert l. induction P as [|x P IH]; intros l; [done|].
  unfold put_all in *. simpl. rewrite item_key_with_items.
  destruct (item_key t x); [|apply IH]. rewrite put_item_with_items. apply IH.
Qed.

Lemma run_puts_table tn items ts t :
  ts !! tn = Some t →
  run_puts tn items ts =
  (<[tn := with_items t (put_all t (keyed_prefix t items) (tbl_items t))]> ts,
   if forallb (has_key t) items then Ok tt else Err ValidationException).
Proof.
  revert ts t. induction items as [|x items IH]; intros ts t Ht; simpl.
  - rewrite with_items_id. by rewrite insert_id.
  - rewrite Ht. destruct (item_key t x) as [k|] eqn:Hx.
    + assert (has_key t x = true) as -> by (unfold has_key; by rewrite Hx).
      rewrite (IH _ (with_items t (put_item t k x (tbl_items t)))) by apply lookup_insert_eq.
      rewrite insert_insert_eq, keyed_prefix_with_items, put_all_with_items.
      f_equal. unfold put_all. simpl. by rewrite Hx.
    + assert (has_key t x = false) as -> by (unfold has_key; by rewrite Hx).
      simpl. by rewrite with_items_id, insert_id.
Qed.

(** Writing the items of an import a second time leaves the tables as
    the first time left them, and ends the same way. *)
Lemma run_puts_idempotent tn items ts :
  (∀ t, ts !! tn = Some t → keyed t (tbl_items t)) →
  let '(ts1, r1) := run_puts tn items ts in
  run_puts tn items ts1 = (ts1, r1).
Proof.
  intros Hk. destruct (ts !! tn) as [t|] eqn:Ht.
  - rewrite (run_puts_table _ _ _ t Ht).
    set (L1 := put_all t (keyed_prefix t items) (tbl_items t)).
    rewrite (run_puts_table _ _ _ (with_items t L1)) by apply lookup_insert_eq.
    rewrite insert_insert_eq, keyed_prefix_with_items, put_all_with_items. simpl.
    unfold L1. rewrite put_all_idempotent; [done|apply keyed_prefix_keyed|by apply Hk].
  - destruct items as [|x items]; simpl; [done|]. by rewrite Ht; simpl; rewrite Ht.
Qed.

Lemma PutItem_fault_free tn item w :
  fault_free w →
  ∃ w', PutItem tn item w = (w', (run_puts tn [item] (w_tables w)).2) ∧
        w_tables w' = (run_puts tn [item] (w_tables w)).1 ∧
        fault_free w' ∧ same_env w w'.
Proof.
  intros Hf. unfold PutItem.
  match goal with
  | |- context [request ?ev ?run w] =>
      destruct (request_fault_free ev run w Hf) as (w1 & Hr & Hf1 & He1 & Hts)
  end.
  exists w1. rewrite Hr, Hts. simpl.
  destruct (w_tables w !! tn) as [t|]; [|done].
  by destruct (item_key t item).
Qed.

Section import_results.
Context `{Float64}.

Lemma put_items_fault_free tn items w :
  fault_free w →
  ∃ w', put_items tn items w = (w', (run_puts tn (MarshalMap <$> items) (w_tables w)).2) ∧
        w_tables w' = (run_puts tn (MarshalMap <$> items) (w_tables w)).1 ∧
        fault_free w' ∧ same_env w w'.
Proof.
  revert w. induction items as [|it items IH]; intros w Hf.
  - exists w. do 3 (split; [done|]). apply same_env_refl.
  - cbn [put_items]. unfold mbind, Go_bind.
    destruct (PutItem_fault_free tn (MarshalMap it) w Hf) as (w1 & Hp & Hts & Hf1 & He1).
    rewrite Hp. rewrite fmap_cons. simpl in Hts |- *.
    destruct (w_tables w !! tn) as [t|] eqn:Ht; [|by exists w1].
    destruct (item_key t (MarshalMap it)) as [k|] eqn:Hk; [|by exists w1].
    simpl in *. destruct (IH w1 Hf1) as (w' & Hi & Hts' & Hf' & He').
    exists w'. rewrite Hi, Hts', Hts. do 3 (split; [done|]). by eapply same_env_trans.
Qed.

Lemma importFromFile_unreadable tn path w :
  w_files w !! path = None →
  importFromFile tn path w = (w, Err (ErrReadFile path)).
Proof. intros Hf. unfold importFromFile, mbind, Go_bind, os_ReadFile. by rewrite Hf. Qed.

Lemma importFromFile_malformed tn path w raw :
  w_files w !! path = Some raw → json_Unmarshal raw = None →
  importFromFile tn path w = (w, Err ErrUnmarshal).
Proof.
  intros Hf Hd. unfold importFromFile, mbind, Go_bind, os_ReadFile. by rewrite Hf, Hd.
Qed.

Lemma prompted_fault_free tn w : fault_free w → fault_free (prompted tn w).
Proof. done. Qed.

(** A confirmed import without failures of the store: what it returns
    and what it leaves in the tables. *)
Lemma import_fault_free tn path w raw data :
  fault_free w →
  w_files w !! path = Some raw →
  json_Unmarshal raw = Some data →
  confirmed w = true →
  ∃ w', importFromFile tn path w =
          (w', (run_puts tn (MarshalMap <$> Items data) (w_tables w)).2) ∧
        w_tables w' = (run_puts tn (MarshalMap <$> Items data) (w_tables w)).1 ∧
        fault_free w' ∧ w_files w' = w_files w ∧ w_prompts w' = tail (w_prompts w).
Proof.
  intros Hf Hfile Hd Hc. rewrite (importFromFile_parsed _ _ _ _ _ Hfile Hd), Hc.
  destruct (put_items_fault_free tn (Items data) (prompted tn w) (prompted_fault_free tn w Hf))
    as (w' & Hp & Hts & Hf' & He').
  exists w'. split; [done|]. split; [done|]. split; [done|]. split; apply He'.
Qed.

Lemma keyed_prefix_all t l :
  Forall (λ x, is_Some (item_key t x)) l →
  keyed_prefix t l = l ∧ forallb (has_key t) l = true.
Proof.
  induction 1 as [|x l [k Hx] _ [IH1 IH2]]; [done|]. simpl. unfold has_key at 1 2.
  rewrite Hx. simpl. by rewrite IH1.
Qed.

(** X9: without failures of the store, a confirmed import writes the items of
    the document in their order up to the first one the store refuses
    (all of them if it refuses none), each under its key, and returns nil
    or the refusal. *)
Theorem import_writes_in_order tableName path w raw data t :
  fault_free w →
  w_files w !! path = Some raw →
  json_Unmarshal raw = Some data →
  confirmed w = true →
  w_tables w !! tableName = Some t →
  let items := MarshalMap <$> Items data in
  ∃ w', importFromFile tableName path w =
          (w', if forallb (has_key t) items then Ok tt else Err ValidationException) ∧
        w_tables w' =
          <[tableName := with_items t (put_all t (keyed_prefix t items) (tbl_items t))]>
            (w_tables w).
Proof.
  intros Hf Hfile Hd Hc Ht items.
  destruct (import_fault_free tableName path w raw data Hf Hfile Hd Hc)
    as (w' & Hi & Hts & _).
  rewrite (run_puts_table _ _ _ t Ht) in Hi, Hts. by exists w'.
Qed.

(** X8: importing a document a second time, both times confirmed and without
    failures of the store, leaves every table as the first import left
    it and returns the same. *)
Theorem import_twice_same tableName path w w1 r1 w2 r2 :
  fault_free w →
  (∀ t, w_tables w !! tableName = Some t → keyed t (tbl_items t)) →
  confirmed w = true → confirmed w1 = true →
  importFromFile tableName path w = (w1, r1) →
  importFromFile tableName path w1 = (w2, r2) →
  w_tables w2 = w_tables w1 ∧ r2 = r1.
Proof.
  intros Hf Hk Hc Hc1 H1 H2.
  destruct (w_files w !! path) as [raw|] eqn:Hfile.
  2:{ rewrite importFromFile_unreadable in H1 by done. injection H1 as <- <-.
      rewrite importFromFile_unreadable in H2 by done. by injection H2 as <- <-. }
  destruct (json_Unmarshal raw) as [data|] eqn:Hd.
  2:{ rewrite (importFromFile_malformed _ _ _ raw) in H1 by done. injection H1 as <- <-.
      rewrite (importFromFile_malformed _ _ _ raw) in H2 by done. by injection H2 as <- <-. }
  destruct (import_fault_free tableName path w raw data Hf Hfile Hd Hc)
    as (w1' & Hi1 & Hts1 & Hf1 & Hfiles1 & _).
  rewrite H1 in Hi1. injection Hi1 as <- ->.
  destruct (import_fault_free tableName path w1 raw data Hf1) as (w2' & Hi2 & Hts2 & _);
    [congruence|done|done|].
  rewrite H2 in Hi2. injection Hi2 as <- ->.
  pose proof (run_puts_idempotent tableName (MarshalMap <$> Items data) (w_tables w) Hk) as Hidem.
  destruct (run_puts tableName (MarshalMap <$> Items data) (w_tables w)) as [ts1 r1] eqn:Hr.
  simpl in *. rewrite Hts2, Hts1, Hidem. done.
Qed.

(** X7: export then import: a table whose items are representable, exported
    and imported into an empty table of the same schema, without failures
    of the store and with the import confirmed, gives a table with the
    same items in the same order. *)
Theorem export_import_round_trip fuel src dst path w1 w2 t :
  fault_free w1 →
  w_tables w1 !! src = Some t →
  length (tbl_items t) < fuel →
  keyed t (tbl_items t) →
  Forall (λ it, representable_item it = true) (tbl_items t) →
  fault_free w2 →
  w_tables w2 !! dst = Some (with_items t []) →
  confirmed w2 = true →
  ∃ out w1',
    export fuel src w1 = (w1', Ok out) ∧
    (w_files w2 !! path = Some out →
     ∃ w2', importFromFile dst path w2 = (w2', Ok tt) ∧
            w_tables w2' = <[dst := t]> (w_tables w2)).
Proof.
  intros Hf1 Ht Hfuel [Hkeys Hnd] Hrep Hf2 Hdst Hc.
  set (d := foldl export_key
              {| TableName := src; PrimaryKey := EmptyString; RangeKey := EmptyString;
                 Items := [] |} (tbl_KeySchema t)).
  destruct (document_survives (TableName d) (PrimaryKey d) (RangeKey d) (tbl_items t) Hrep)
    as (its & out & its' & Hu & Hm & Hback & Hitems).
  destruct (export_succeeds fuel src w1 t its out Hf1 Ht Hfuel Hu Hm) as (w1' & He & _).
  exists out, w1'. split; [done|]. intros Hfile.
  destruct (import_writes_in_order dst path w2 out _ (with_items t []) Hf2 Hfile Hback Hc Hdst)
    as (w2' & Hi & Hts).
  simpl in Hi, Hts. rewrite Hitems in Hi, Hts.
  assert (Forall (λ x, is_Some (item_key (with_items t []) x)) (tbl_items t)) as Hkeys' by done.
  destruct (keyed_prefix_all _ _ Hkeys') as [Hp Hall].
  rewrite Hall in Hi. rewrite Hp in Hts.
  exists w2'. split; [done|]. rewrite Hts. f_equal.
  rewrite put_all_with_items, (put_all_fresh t (tbl_items t) []) by done.
  by destruct t.
Qed.
End import_results.

(** ** Files that cannot be imported, the prompt, and [main] *)

Definition is_prompt_or_put (tn : string) (ev : Event) : Prop :=
  match ev with
  | EvPrompt _ => True
  | EvPutItem n _ _ => n = tn
  | _ => False
  end.

Section main_properties.
Context `{Float64}.

(** X10: a file that cannot be read, or that is not a JSON document, makes
    import return the error at once: the world is as before, no prompt
    was shown and no request sent. *)
Theorem import_bad_file tableName path w :
  (w_files w !! path = None ∨
   ∃ raw, w_files w !! path = Some raw ∧ json_Unmarshal raw = None) →
  ∃ e, importFromFile tableName path w = (w, Err e) ∧
       e = match w_files w !! path with
           | None => ErrReadFile path
           | Some _ => ErrUnmarshal
           end.
Proof.
  intros [Hf|(raw & Hf & Hd)]; rewrite Hf.
  - eexists. split; [by apply importFromFile_unreadable|done].
  - eexists. split; [by eapply importFromFile_malformed|done].
Qed.

(** X11: what an import sends and shows: for a file that parses, one prompt
    that names the table, then put-item requests on that table only. *)
Theorem import_prompts_first tableName path w raw data :
  w_files w !! path = Some raw →
  json_Unmarshal raw = Some data →
  ∃ evs, new_events w (importFromFile tableName path w).1
         = EvPrompt (confirm_title tableName) :: evs ∧
         Forall (λ ev, ∃ item e, ev = EvPutItem tableName item e) evs ∧
         w_prompts (importFromFile tableName path w).1 = tail (w_prompts w).
Proof.
  intros Hf Hd. rewrite (importFromFile_parsed _ _ _ _ _ Hf Hd).
  destruct (confirmed w).
  - destruct (put_items tableName (Items data) (prompted tableName w)) as [w' r] eqn:Hp.
    apply put_items_outcome in Hp as [He Ho]. simpl.
    assert (w_prompts w' = tail (w_prompts w)) as Hpr by apply He.
    destruct Ho as [Hl _|K it e _ Hl _]; simpl in Hl; rewrite <-app_assoc in Hl;
      rewrite (new_events_app _ _ _ Hl); eexists; (split; [done|]); (split; [|done]).
    + apply Forall_fmap, Forall_true. intros it. by eexists _, _.
    + apply Forall_app. split; [|repeat constructor; by eexists _, _].
      apply Forall_fmap, Forall_true. intros it'. by eexists _, _.
  - simpl. exists []. split; [by apply new_events_app|]. by split.
Qed.

Lemma importFromFile_events tn path w w' r :
  importFromFile tn path w = (w', r) →
  Forall (is_prompt_or_put tn) (new_events w w') ∧ w_stdout w' = w_stdout w ∧
  r ≠ OutOfFuel.
Proof.
  intros Hi. destruct (w_files w !! path) as [raw|] eqn:Hf.
  2:{ rewrite importFromFile_unreadable in Hi by done. injection Hi as <- <-.
      by rewrite (new_events_app w w []) by (by rewrite app_nil_r). }
  destruct (json_Unmarshal raw) as [data|] eqn:Hd.
  2:{ rewrite (importFromFile_malformed _ _ _ raw) in Hi by done. injection Hi as <- <-.
      by rewrite (new_events_app w w []) by (by rewrite app_nil_r). }
  destruct (import_prompts_first tn path w raw data Hf Hd) as (evs & Hev & Hall & _).
  rewrite Hi in Hev. simpl in Hev. rewrite Hev. split.
  - constructor; [done|]. eapply Forall_impl; [exact Hall|]. by intros ev (? & ? & ->).
  - rewrite (importFromFile_parsed _ _ _ _ _ Hf Hd) in Hi. destruct (confirmed w).
    + apply put_items_outcome in Hi as [He Ho]. split; [apply He|]. by destruct Ho.
    + by injection Hi as <- <-.
Qed.

(** X17: [main] runs one operation.  With [--import] it shows the prompt and
    sends put-item requests on the table, nothing else, and prints
    nothing on standard output; without, it sends describe-table and scan
    requests on the table, changes no table and shows no prompt. *)
Theorem main_runs_one_operation fuel tableName importPath w :
  tableName ≠ EmptyString →
  let w' := (main fuel tableName importPath w).1 in
  (importPath ≠ EmptyString →
   Forall (is_prompt_or_put tableName) (new_events w w') ∧ w_stdout w' = w_stdout w) ∧
  (importPath = EmptyString →
   Forall (is_read tableName) (new_events w w') ∧ w_tables w' = w_tables w ∧
   w_prompts w' = w_prompts w).
Proof.
  intros Htn.
  assert (new_events w w = []) as Hnil by (apply new_events_app; by rewrite app_nil_r).
  unfold main. rewrite decide_False by done.
  destruct (w_config w) as [e|].
  { simpl. change (new_events w (print_stderr (error_text e) w)) with (new_events w w).
    rewrite Hnil. by repeat split. }
  case_decide as Hip; simpl; (split; [intros Hne|intros Heq]); try done.
  - destruct (importFromFile tableName importPath w) as [w' r] eqn:Hi.
    apply importFromFile_events in Hi as (Hev & Hout & _).
    by destruct r.
  - destruct (export fuel tableName w) as [w' r] eqn:He.
    apply export_read in He as (Hts & Henv & evs & Hl & Hr & _).
    assert (w_prompts w' = w_prompts w) as Hpr by apply Henv.
    destruct r as [out|e|]; simpl;
      [change (new_events w (print_stdout out w')) with (new_events w w')
      |change (new_events w (print_stderr (error_text e) w')) with (new_events w w')|];
      by rewrite (new_events_app _ _ _ Hl).
Qed.

(** X18: declining is no error, failing is: when the user declines the import
    of a file that parses, [main] exits with status 0, with the tables
    and standard error as they were; when the import returns an error,
    [main] exits with status 1 and one more line on standard error. *)
Theorem main_import_exit_status fuel tableName importPath w :
  tableName ≠ EmptyString → importPath ≠ EmptyString → w_config w = None →
  let '(w1, r) := importFromFile tableName importPath w in
  let '(w', status) := main fuel tableName importPath w in
  match r with
  | Err e => status = 1 ∧ w_stderr w' = w_stderr w ++ [error_text e]
  | _ => status = 0 ∧ w_stderr w' = w_stderr w
  end ∧
  w_tables w' = w_tables w1 ∧
  ((∃ raw data, w_files w !! importPath = Some raw ∧ json_Unmarshal raw = Some data) →
   confirmed w = false → status = 0 ∧ w_tables w' = w_tables w).
Proof.
  intros Htn Hip Hcfg. unfold main.
  rewrite decide_False by done. rewrite Hcfg, decide_True by done.
  destruct (importFromFile tableName importPath w) as [w1 r] eqn:Hi.
  assert (w_stderr w1 = w_stderr w) as Herr.
  { destruct (w_files w !! importPath) as [raw|] eqn:Hf.
    2:{ rewrite importFromFile_unreadable in Hi by done. by injection Hi as <- <-. }
    destruct (json_Unmarshal raw) as [data|] eqn:Hd.
    2:{ rewrite (importFromFile_malformed _ _ _ raw) in Hi by done. by injection Hi as <- <-. }
    rewrite (importFromFile_parsed _ _ _ _ _ Hf Hd) in Hi. destruct (confirmed w).
    - apply put_items_outcome in Hi as [He _]. apply He.
    - by injection Hi as <- <-. }
  assert (∀ raw data, w_files w !! importPath = Some raw → json_Unmarshal raw = Some data →
            confirmed w = false → r = Ok tt ∧ w_tables w1 = w_tables w) as Hdecl.
  { intros raw data Hf Hd Hc.
    destruct (import_not_confirmed tableName importPath w raw data Hf Hd Hc)
      as (w'' & Hi' & Hts & _).
    rewrite Hi in Hi'. by injection Hi' as <- <-. }
  destruct r as [[]|e|]; simpl; (split; [by rewrite Herr|]); (split; [done|]);
    intros (raw & data & Hf & Hd) Hc; by destruct (Hdecl raw data Hf Hd Hc) as [? ->].
Qed.

(** X19: [main] without [--import], given fuel for one page per item of
    the table and one more: it prints the document export returned, once,
    and exits with status 0; or it prints nothing on standard output,
    writes the error on standard error and exits with status 1. *)
Theorem main_export_exit_status fuel tableName w :
  tableName ≠ EmptyString → w_config w = None →
  (∀ t, w_tables w !! tableName = Some t → length (tbl_items t) < fuel) →
  let '(w1, r) := export fuel tableName w in
  let '(w', status) := main fuel tableName EmptyString w in
  match r with
  | Ok out => status = 0 ∧ w_stdout w' = w_stdout w ++ [out] ∧ w_stderr w' = w_stderr w
  | Err e => status = 1 ∧ w_stdout w' = w_stdout w ∧ w_stderr w' = w_stderr w ++ [error_text e]
  | OutOfFuel => False
  end.
Proof.
  intros Htn Hcfg Hfuel. unfold main.
  rewrite decide_False by done. rewrite Hcfg, decide_False by (by intros ?).
  destruct (export_terminates fuel tableName w Hfuel) as (w1 & [[out He]|[e He]]);
    rewrite He; apply export_read in He as (_ & Henv & _);
    assert (w_stdout w1 = w_stdout w ∧ w_stderr w1 = w_stderr w) as [Ho Herr]
      by (split; apply Henv); simpl; by rewrite Ho, Herr.
Qed.
End main_properties.

Section prompt_error.
Context `{Float64}.

(** X13: the error of [form.Run()] is dropped: with the same value left in
    [confirm], an import returns the same, sends the same requests and
    leaves the same tables whether the prompt ended with an error or
    without one. *)
Theorem import_ignores_prompt_error tableName path w po ps e :
  w_prompts w = po :: ps →
  let run := importFromFile tableName path in
  let w2 := set_prompts ({| po_confirm := po_confirm po; po_err := e |} :: ps) w in
  (run w2).2 = (run w).2 ∧
  w_tables (run w2).1 = w_tables (run w).1 ∧
  new_events w2 (run w2).1 = new_events w (run w).1.
Proof.
  intros Hp run w2. unfold run, importFromFile, mbind, Go_bind, os_ReadFile. simpl.
  destruct (w_files w !! path) as [raw|]; [|done].
  destruct (json_Unmarshal raw) as [data|]; simpl; [|done].
  unfold form_Run. simpl. rewrite Hp. simpl.
  change (set_prompts ps w2) with (set_prompts ps w). done.
Qed.
End prompt_error.

(** The user had moved to yes and then aborted the form. *)
Lemma import_ignores_prompt_error_witness :
  let w := foo_world [] [] {[ "dump.json" := foo_document [json_a] ]} [yes] in
  let w2 := set_prompts [aborted_after_yes] w in
  (importFromFile "foo" "dump.json" w2).2 = (importFromFile "foo" "dump.json" w).2 ∧
  w_tables (importFromFile "foo" "dump.json" w2).1
    = w_tables (importFromFile "foo" "dump.json" w).1 ∧
  new_events w2 (importFromFile "foo" "dump.json" w2).1
    = new_events w (importFromFile "foo" "dump.json" w).1.
Proof.
  intros w w2.
  exact (import_ignores_prompt_error "foo" "dump.json" w yes [] (Some (ErrPrompt "user aborted"))
           eq_refl).
Defined.

(** ** The properties at work on the table [foo] *)

Lemma foo_items_representable :
  Forall (λ it, representable_item it = true) [item_a; item_b; item_c].
Proof. repeat constructor. Qed.

Lemma foo_items_keyed l :
  keyed (foo_table l) [item_a; item_b; item_c].
Proof.
  split.
  - repeat constructor; by eexists.
  - apply (bool_decide_unpack _). by vm_compute.
Qed.

(** Three items read in pages of one: the document holds all three. *)
Lemma export_holds_every_item_witness :
  let t := foo_table [item_a; item_b; item_c] in
  ∃ out its,
    (export 5 "foo" (foo_world [item_a; item_b; item_c] [] ∅ [])).2 = Ok out ∧
    UnmarshalListOfMaps (tbl_items t) = Some its ∧
    json_Marshal (export_doc "foo" t its) = Some out.
Proof.
  intros t. set (w := foo_world [item_a; item_b; item_c] [] ∅ []).
  destruct (export 5 "foo" w) as [w' r] eqn:He.
  assert (∃ out, r = Ok out) as [out ->].
  { vm_compute in He. injection He as _ <-. eauto. }
  assert (w_tables w !! "foo" = Some t) as Ht by (by vm_compute).
  destruct (export_holds_every_item 5 "foo" w w' out t Ht He) as (its & Hu & Hm).
  clear He Ht. exists out, its. split; [reflexivity|]. split; [exact Hu|exact Hm].
Defined.

Lemma export_succeeds_witness :
  ∃ w' out, export 5 "foo" (foo_world [item_a; item_b; item_c] [] ∅ []) = (w', Ok out).
Proof.
  set (w := foo_world [item_a; item_b; item_c] [] ∅ []).
  set (t := foo_table [item_a; item_b; item_c]).
  destruct (document_survives "foo" "id" EmptyString [item_a; item_b; item_c]
              foo_items_representable) as (its & out & _ & Hu & Hm & _).
  destruct (export_succeeds 5 "foo" w t its out) as (w' & He & _).
  - constructor.
  - by vm_compute.
  - simpl. lia.
  - exact Hu.
  - exact Hm.
  - by exists w', out.
Defined.

(** There is no table [bar]: describe-table fails and no scan follows. *)
Lemma export_describe_failure_witness :
  let w := foo_world [item_a] [] ∅ [] in
  (export 5 "bar" w).2 = Err ResourceNotFoundException ∧
  new_events w (export 5 "bar" w).1 = [EvDescribeTable "bar" (Some ResourceNotFoundException)].
Proof.
  intros w. destruct (export 5 "bar" w) as [w' r] eqn:He.
  apply (export_describe_failure 5 "bar" w w' r ResourceNotFoundException He).
  vm_compute in He. injection He as <- _. vm_compute. by repeat constructor.
Defined.

(** The third request fails: export ends with an error. *)
Lemma export_terminates_witness :
  let w := foo_world [item_a; item_b; item_c] [None; None; Some timeout] ∅ [] in
  ∃ w', (∃ out, export 4 "foo" w = (w', Ok out)) ∨ (∃ e, export 4 "foo" w = (w', Err e)).
Proof.
  intros w. apply (export_terminates 4 "foo" w).
  intros t Ht. vm_compute in Ht. injection Ht as <-. simpl. lia.
Defined.

Lemma document_survives_witness :
  ∃ its out its',
    UnmarshalListOfMaps [item_a; item_b; item_c] = Some its ∧
    json_Marshal {| TableName := "foo"; PrimaryKey := "id"; RangeKey := EmptyString;
                    Items := its |} = Some out ∧
    json_Unmarshal out = Some {| TableName := "foo"; PrimaryKey := "id";
                                 RangeKey := EmptyString; Items := its' |} ∧
    MarshalMap <$> its' = [item_a; item_b; item_c].
Proof.
  exact (document_survives "foo" "id" EmptyString [item_a; item_b; item_c]
           foo_items_representable).
Defined.

(** A second table [copy] with the schema of [foo] and no items. *)
Definition copy_world (files : gmap string string) (prompts : list PromptOutcome) : World :=
  set_tables {[ "copy" := foo_table [] ]} (foo_world [] [] files prompts).

(** What export prints for a world, the empty text when it fails. *)
Definition exported (tableName : string) (w : World) : string :=
  match export 5 tableName w with (_, Ok out) => out | _ => EmptyString end.

(** [foo] exported and the dump imported into [copy]: [copy] is [foo]. *)
Lemma export_import_round_trip_witness :
  let w1 := foo_world [item_a; item_b; item_c] [] ∅ [] in
  let w2 := copy_world {[ "dump.json" := exported "foo" w1 ]} [yes] in
  ∃ w2', importFromFile "copy" "dump.json" w2 = (w2', Ok tt) ∧
         w_tables w2' = {[ "copy" := foo_table [item_a; item_b; item_c] ]}.
Proof.
  intros w1 w2.
  destruct (export_import_round_trip 5 "foo" "copy" "dump.json" w1 w2
              (foo_table [item_a; item_b; item_c])) as (out & w1' & He & Hi).
  - constructor.
  - by vm_compute.
  - simpl. lia.
  - apply foo_items_keyed.
  - apply foo_items_representable.
  - constructor.
  - by vm_compute.
  - by vm_compute.
  - destruct Hi as (w2' & Hi & Hts).
    + unfold w2, copy_world, exported. rewrite He. apply lookup_singleton_eq.
    + exists w2'. split; [exact Hi|]. rewrite Hts. clear. by vm_compute.
Defined.

(** A document that holds the key [a] twice, imported twice into a table
    that holds [b]. *)
Definition json_a' : JSON := JObject [("id", JString "a"); ("v", JNumber "9")].

Lemma import_twice_same_witness :
  let w := foo_world [item_b] [] {[ "dump.json" := foo_document [json_a; json_a'] ]} [yes; yes] in
  let '(w1, r1) := importFromFile "foo" "dump.json" w in
  let '(w2, r2) := importFromFile "foo" "dump.json" w1 in
  w_tables w2 = w_tables w1 ∧ r2 = r1.
Proof.
  intros w.
  destruct (importFromFile "foo" "dump.json" w) as [w1 r1] eqn:H1.
  destruct (importFromFile "foo" "dump.json" w1) as [w2 r2] eqn:H2.
  apply (import_twice_same "foo" "dump.json" w w1 r1 w2 r2); [| | | |exact H1|exact H2].
  - constructor.
  - clear. intros t Ht. vm_compute in Ht. injection Ht as <-. split.
    + repeat constructor; by eexists.
    + apply (bool_decide_unpack _). by vm_compute.
  - clear. by vm_compute.
  - clear H2. vm_compute in H1. injection H1 as <- _. by vm_compute.
Defined.

(** The second item has no key: the first is written, the third is not. *)
Lemma import_writes_in_order_witness :
  let raw := foo_document [json_a; json_keyless; json_b] in
  let w := foo_world [item_c] [] {[ "dump.json" := raw ]} [yes] in
  let t := foo_table [item_c] in
  ∃ data w',
    json_Unmarshal raw = Some data ∧
    importFromFile "foo" "dump.json" w =
      (w', if forallb (has_key t) (MarshalMap <$> Items data)
           then Ok tt else Err ValidationException) ∧
    w_tables w' =
      <["foo" := with_items t (put_all t (keyed_prefix t (MarshalMap <$> Items data))
                                 (tbl_items t))]> (w_tables w).
Proof.
  intros raw w t.
  destruct (parses_Some (json_Unmarshal raw)) as [data Hd]; [by vm_compute|].
  destruct (import_writes_in_order "foo" "dump.json" w raw data t) as (w' & Hi & Hts).
  - constructor.
  - by vm_compute.
  - exact Hd.
  - by vm_compute.
  - by vm_compute.
  - exists data, w'. split; [exact Hd|]. split; [exact Hi|exact Hts].
Defined.

(** There is no file [missing.json]. *)
Lemma import_bad_file_witness :
  let w := foo_world [item_a] [] ∅ [yes] in
  ∃ e, importFromFile "foo" "missing.json" w = (w, Err e) ∧
       e = match w_files w !! "missing.json" with
           | None => ErrReadFile "missing.json"
           | Some _ => ErrUnmarshal
           end.
Proof.
  intros w. apply (import_bad_file "foo" "missing.json" w). left. by vm_compute.
Defined.

Lemma import_prompts_first_witness :
  let w := foo_world [] [] {[ "dump.json" := foo_document [json_a; json_b] ]} [yes] in
  ∃ evs, new_events w (importFromFile "foo" "dump.json" w).1
         = EvPrompt (confirm_title "foo") :: evs ∧
         Forall (λ ev, ∃ item e, ev = EvPutItem "foo" item e) evs ∧
         w_prompts (importFromFile "foo" "dump.json" w).1 = tail (w_prompts w).
Proof.
  intros w.
  destruct (parses_Some (json_Unmarshal (foo_document [json_a; json_b])))
    as [data Hd]; [by vm_compute|].
  apply (import_prompts_first "foo" "dump.json" w (foo_document [json_a; json_b]) data);
    [by vm_compute|exact Hd].
Defined.

Lemma main_runs_one_operation_witness :
  let w := foo_world [item_a] [] {[ "dump.json" := foo_document [json_b] ]} [yes] in
  let w' := (main 5 "foo" "dump.json" w).1 in
  ("dump.json" ≠ EmptyString →
   Forall (is_prompt_or_put "foo") (new_events w w') ∧ w_stdout w' = w_stdout w) ∧
  ("dump.json" = EmptyString →
   Forall (is_read "foo") (new_events w w') ∧ w_tables w' = w_tables w ∧
   w_prompts w' = w_prompts w).
Proof.
  intros w. apply (main_runs_one_operation 5 "foo" "dump.json" w). discriminate.
Defined.

(** The write of the keyless item fails: status 1. *)
Lemma main_import_exit_status_witness :
  let w := foo_world [] [] {[ "dump.json" := foo_document [json_a; json_keyless] ]} [yes] in
  let '(w1, r) := importFromFile "foo" "dump.json" w in
  let '(w', status) := main 5 "foo" "dump.json" w in
  match r with
  | Err e => status = 1 ∧ w_stderr w' = w_stderr w ++ [error_text e]
  | _ => status = 0 ∧ w_stderr w' = w_stderr w
  end ∧
  w_tables w' = w_tables w1 ∧
  ((∃ raw data, w_files w !! "dump.json" = Some raw ∧ json_Unmarshal raw = Some data) →
   confirmed w = false → status = 0 ∧ w_tables w' = w_tables w).
Proof.
  intros w. apply (main_import_exit_status 5 "foo" "dump.json" w); [discriminate..|reflexivity].
Defined.

Lemma main_export_exit_status_witness :
  let w := foo_world [item_a; item_b] [] ∅ [] in
  let '(w1, r) := export 5 "foo" w in
  let '(w', status) := main 5 "foo" EmptyString w in
  match r with
  | Ok out => status = 0 ∧ w_stdout w' = w_stdout w ++ [out] ∧ w_stderr w' = w_stderr w
  | Err e => status = 1 ∧ w_stdout w' = w_stdout w ∧ w_stderr w' = w_stderr w ++ [error_text e]
  | OutOfFuel => False
  end.
Proof.
  intros w. apply (main_export_exit_status 5 "foo" w); [discriminate|reflexivity|].
  intros t Ht. vm_compute in Ht. injection Ht as <-. simpl. lia.
Defined.
